(** * Duplicacy (Threefish/Argon2/zstd fork): chunk envelope and Sia storage

    A shallow embedding of the package's chunk file (the chunk object, its
    buffer pool, [threefishCTR], [Encrypt], [Decrypt]) and of the lookup half
    of [duplicacy_siastorage.go] ([GetFileInfo], [FindChunk]).

    Go values are modelled as follows.
    - [[]byte] is [list byte]; a nil slice and an empty slice are both [[]]
      (the code only ever asks for their [len]).
    - [string] is [string]; [[]byte(s)] is [list_byte_of_string s].
    - [int] lengths are [nat]; [uint64]/[int64] are [Z] with the conversion
      written out.  The one [int] that is a running sum rather than the
      length of a slice in memory is [chunk.size]: it is a [nat] too, and
      what is stated about its value is stated for sums that [fits_int].
    - [error] is the error's message; a nil error is [None].
    - a pointer that may be nil is an [option]; dereferencing [None] panics.
    - a slice expression out of range, a nil dereference and
      [cipher.NewCTR] with a bad IV length panic; a panic is the terminal
      outcome [Panic] of a call.
    - [*bytes.Buffer] objects are modelled by their contents: the buffers
      held by the pool and the buffer owned by a chunk are distinct objects
      in the program, so no aliasing between them has to be tracked. *)

From Stdlib Require Import String Ascii Bool Arith NArith ZArith Lia List.
From Stdlib.Strings Require Import Byte.
From Stdlib Require Import DecimalString.
Import ListNotations.

(** ** Go runtime values *)

Definition bytes := list byte.
Definition error := string.

(** [len(s)] of a Go string counts bytes. *)
Definition bytes_of_string (s : string) : bytes := list_byte_of_string s.

(** [%d] of [fmt.Errorf] for a non-negative integer. *)
Definition fmt_d (n : nat) : string := NilEmpty.string_of_uint (Nat.to_uint n).

(** [math.MaxInt32].  An [int] is 32 or 64 bits wide; a sum of lengths that
    stays within this bound wraps on neither. *)
Definition MaxInt32 : Z := (2 ^ 31 - 1)%Z.

Definition fits_int (n : nat) : Prop := (Z.of_nat n <= MaxInt32)%Z.

(** [a + b] on [int]s of [width] bits: two's complement, the sum wraps. *)
Definition int_add (width : Z) (a b : Z) : Z :=
  ((a + b + 2 ^ (width - 1)) mod 2 ^ width - 2 ^ (width - 1))%Z.

(** [size += len(p)] for every [p] of [ps] in turn, on [int]s of [width]
    bits. *)
Fixpoint int_size_after (width : Z) (size : Z) (ps : list bytes) : Z :=
  match ps with
  | [] => size
  | p :: ps' => int_size_after width (int_add width size (Z.of_nat (length p))) ps'
  end.

(** The value of a [byte] as an integer. *)
Definition byte_val (b : byte) : nat := N.to_nat (Byte.to_N b).

(** Outcome of a call that may return an error value or panic. *)
Inductive result (A : Type) : Type :=
| Ok (a : A)
| Err (e : error)
| Panic.
Arguments Ok {A} a.
Arguments Err {A} e.
Arguments Panic {A}.

Definition rbind {A B} (r : result A) (k : A -> result B) : result B :=
  match r with
  | Ok a => k a
  | Err e => Err e
  | Panic => Panic
  end.

(** A library call [v, err := f(...)] followed by [if err != nil { return err }]. *)
Definition of_sum {A} (r : A + error) : result A :=
  match r with
  | inl a => Ok a
  | inr e => Err e
  end.

(** A Go expression that panics when it has no value. *)
Definition of_option {A} (o : option A) : result A :=
  match o with
  | Some a => Ok a
  | None => Panic
  end.

Declare Scope result_scope.
Delimit Scope result_scope with result.
Notation "x <- r ;; k" := (rbind r (fun x => k))
  (at level 61, r at next level, right associativity) : result_scope.

(** [copy(dst, src)]: the array [dst] after the copy. *)
Definition copy (dst src : bytes) : bytes :=
  firstn (length dst) src ++ skipn (length src) dst.

(** *** Slices *)

(** [s[lo:hi]]; panics unless [lo <= hi <= len(s)] (every slice sliced by the
    code has its capacity equal to its length). *)
Definition slice (s : bytes) (lo hi : nat) : option bytes :=
  if (lo <=? hi) && (hi <=? length s)
  then Some (firstn (hi - lo) (skipn lo s))
  else None.

(** [s[lo:]] *)
Definition slice_from (s : bytes) (lo : nat) : option bytes :=
  slice s lo (length s).

(** [s[i]] *)
Definition index (s : bytes) (i : nat) : option byte := nth_error s i.

(** *** bytes.Compare *)

(** [bytes.Compare(a, b)]: -1, 0 or +1 by lexicographic order. *)
Fixpoint bytes_Compare (a b : bytes) : Z :=
  match a, b with
  | [], [] => 0
  | [], _ :: _ => -1
  | _ :: _, [] => 1
  | x :: a', y :: b' =>
      match N.compare (Byte.to_N x) (Byte.to_N y) with
      | Lt => -1
      | Gt => 1
      | Eq => bytes_Compare a' b'
      end
  end%Z.

(** *** bytes.Buffer *)

Definition Buffer := bytes.
Definition Buffer_Reset (b : Buffer) : Buffer := [].
Definition Buffer_Write (b : Buffer) (p : bytes) : Buffer := b ++ p.
Definition Buffer_Bytes (b : Buffer) : bytes := b.

(** *** crypto/cipher: counter mode *)

(** A [cipher.Block]: its block size and its [Encrypt] on one block. *)
Record Block : Type := {
  BlockSize : nat;
  Block_Encrypt : bytes -> bytes
}.

Definition byte_xor (a b : byte) : byte :=
  match Byte.of_N (N.lxor (Byte.to_N a) (Byte.to_N b)) with
  | Some c => c
  | None => x00
  end.

(** [x.ctr[i]++] on one byte, with the wrap to zero. *)
Definition byte_succ (b : byte) : byte :=
  match Byte.of_N (Byte.to_N b + 1) with
  | Some c => c
  | None => x00
  end.

(** The counter, least significant byte first. *)
Fixpoint incr_le (c : bytes) : bytes :=
  match c with
  | [] => []
  | b :: rest =>
      let b' := byte_succ b in
      if Byte.eqb b' x00 then b' :: incr_le rest else b' :: rest
  end.

(** The increment loop of [ctr.refill]: from the last byte towards the
    first, stopping at the first byte that does not wrap. *)
Definition ctr_increment (c : bytes) : bytes := rev (incr_le (rev c)).

(** The key stream: [Encrypt(ctr)], [Encrypt(ctr+1)], ... *)
Fixpoint ctr_keystream (b : Block) (ctr : bytes) (nblocks : nat) : bytes :=
  match nblocks with
  | O => []
  | S n => Block_Encrypt b ctr ++ ctr_keystream b (ctr_increment ctr) n
  end.

(** [dst[i] = src[i] ^ ks[i]].  A block cipher fills whole blocks, so the
    key stream is never shorter than [src]; past its end the byte is copied. *)
Fixpoint xorBytes (src ks : bytes) : bytes :=
  match src with
  | [] => []
  | s :: src' =>
      match ks with
      | [] => s :: xorBytes src' []
      | k :: ks' => byte_xor s k :: xorBytes src' ks'
      end
  end.

(** Number of blocks that cover [n] bytes. *)
Definition blocks_for (bs n : nat) : nat :=
  match bs with
  | O => O
  | S _ => (n + bs - 1) / bs
  end.

(** [stream := cipher.NewCTR(block, iv); stream.XORKeyStream(dst, src)] with
    [dst = make([]byte, len(src))]. [NewCTR] panics when the IV length is not
    the block size. *)
Definition CTR_XORKeyStream (b : Block) (iv src : bytes) : option bytes :=
  if length iv =? BlockSize b
  then Some (xorBytes src (ctr_keystream b iv (blocks_for (BlockSize b) (length src))))
  else None.

(** ** The libraries and the rest of the package *)

(** Modelled from the spec: the [Config] struct is declared in a file of the
    package that is not part of this development; it supplies "the hash key,
    id-derivation key, maximum chunk size, compression level, and factory
    for keyed hashers" (the factory is [KeyedHasher_Sum] below). *)
Record Config : Type := {
  MaximumChunkSize : nat;
  CompressionLevel : Z;
  HashKey : bytes;
  IDKey : bytes
}.

(** [argon2.Config] of github.com/lhecker/argon2. *)
Record Argon2Config : Type := {
  HashLength : nat;
  SaltLength : nat;
  TimeCost : N;
  MemoryCost : N;
  Parallelism : N;
  Mode : N;
  Version : N
}.

(** Constants of github.com/aead/skein/threefish, in bytes. *)
Definition BlockSize512 : nat := 64.
Definition BlockSize1024 : nat := 128.
Definition TweakSize : nat := 16.

(** What the code imports and does not define.  Hash objects ([hash.Hash])
    are modelled by the function from the bytes written so far to the
    digest that [Sum(nil)] returns. *)
Class Libs : Type := {
  (** [pbkdf2.Key(password, salt, iter, keyLen, sha512.New)] *)
  pbkdf2_Key_sha512 : bytes -> bytes -> nat -> nat -> bytes;
  (** [argon2.DefaultConfig()] and [cfg.Hash(pwd, salt)], keeping [raw.Hash] *)
  argon2_DefaultConfig : Argon2Config;
  argon2_Hash : Argon2Config -> bytes -> bytes -> bytes + error;
  (** [threefish.NewCipher(&tweak, key)] *)
  threefish_NewCipher : bytes -> bytes -> Block + error;
  (** [skein.New(size, &skein.Config{Key: key, Personal: personal})] fed
      with a message: size, key, personal, message *)
  skein_Sum : nat -> bytes -> bytes -> bytes -> bytes;
  (** [zstd.CompressLevel(nil, src, level)] and [zstd.Decompress(nil, src)] *)
  zstd_CompressLevel : bytes -> Z -> bytes + error;
  zstd_Decompress : bytes -> bytes + error;
  (** [zbase32.EncodeToString] *)
  zbase32_EncodeToString : bytes -> string;
  (** [crypto/rand]: [rand.Read] on a slice of the given length *)
  RandState : Type;
  rand_Read : nat -> RandState -> (bytes + error) * RandState;
  (** [runtime.NumCPU()] *)
  runtime_NumCPU : nat;
  (** [PERSONALIZATION], a package-level value declared in another file *)
  PERSONALIZATION : bytes;
  (** the digest of the hasher that [config.NewKeyedHasher(key)] returns,
      after the given bytes were written to it *)
  KeyedHasher_Sum : Config -> bytes -> bytes -> bytes
}.

(** The contracts of those libraries that the round trip relies on. *)
Class LibsLaws (L : Libs) : Prop := {
  zstd_roundtrip : forall src level compressed,
    zstd_CompressLevel src level = inl compressed ->
    zstd_Decompress compressed = inl src;
  argon2_Hash_length : forall cfg pwd salt raw,
    argon2_Hash cfg pwd salt = inl raw -> length raw = HashLength cfg;
  threefish_BlockSize : forall tweak key blk,
    threefish_NewCipher tweak key = inl blk -> BlockSize blk = length key;
  skein_Sum_length : forall size key personal msg,
    length (skein_Sum size key personal msg) = size;
  rand_Read_length : forall n s buf s',
    rand_Read n s = (inl buf, s') -> length buf = n;
  runtime_NumCPU_pos : 0 < runtime_NumCPU
}.

Section ChunkModel.

Context {L : Libs}.

(** ** Hashers *)

(** Modelled from the spec: [config.NewKeyedHasher] is defined in a file of
    the package that is not part of this development.  It yields "a keyed
    hash over plaintext with key [config.HashKey]"; "the specific hash
    function is supplied by [config.NewKeyedHasher]".  A hasher is modelled
    by the configuration and key it was made from and the bytes written to
    it; its digest is [KeyedHasher_Sum] of the three. *)
Record Hasher : Type := {
  hasher_config : Config;
  hasher_key : bytes;
  hasher_written : bytes
}.

Definition NewKeyedHasher (cfg : Config) (key : bytes) : Hasher :=
  {| hasher_config := cfg; hasher_key := key; hasher_written := [] |}.

Definition Hasher_Write (h : Hasher) (p : bytes) : Hasher :=
  {| hasher_config := hasher_config h;
     hasher_key := hasher_key h;
     hasher_written := hasher_written h ++ p |}.

Definition Hasher_Sum (h : Hasher) : bytes :=
  KeyedHasher_Sum (hasher_config h) (hasher_key h) (hasher_written h).

(** ** Package state *)

(** One [LOG_INFO(id, message)] call. *)
Definition LogEntry : Type := (string * string)%type.

(** The package-level variables and what the process reads from outside. *)
Record World : Type := {
  chunkBufferPool : list (option Buffer);
  DecryptWithHMACSHA256 : bool;
  rand_state : RandState;
  log_info : list LogEntry
}.

Definition set_pool (p : list (option Buffer)) (w : World) : World :=
  {| chunkBufferPool := p;
     DecryptWithHMACSHA256 := DecryptWithHMACSHA256 w;
     rand_state := rand_state w;
     log_info := log_info w |}.

Definition set_flag (b : bool) (w : World) : World :=
  {| chunkBufferPool := chunkBufferPool w;
     DecryptWithHMACSHA256 := b;
     rand_state := rand_state w;
     log_info := log_info w |}.

Definition set_rand (r : RandState) (w : World) : World :=
  {| chunkBufferPool := chunkBufferPool w;
     DecryptWithHMACSHA256 := DecryptWithHMACSHA256 w;
     rand_state := r;
     log_info := log_info w |}.

(** Modelled from the spec: [LOG_INFO] is defined in a file of the package
    that is not part of this development; a release into a full pool
    "discards the buffer and logs an informational event". *)
Definition LOG_INFO (id msg : string) (w : World) : World :=
  {| chunkBufferPool := chunkBufferPool w;
     DecryptWithHMACSHA256 := DecryptWithHMACSHA256 w;
     rand_state := rand_state w;
     log_info := log_info w ++ [(id, msg)] |}.

(** [make(chan *bytes.Buffer, runtime.NumCPU()*16)] *)
Definition chunkBufferPool_cap : nat := runtime_NumCPU * 16.

(** The variable initialisers: an empty pool, [DecryptWithHMACSHA256 = false]. *)
Definition World_initial (r : RandState) : World :=
  {| chunkBufferPool := [];
     DecryptWithHMACSHA256 := false;
     rand_state := r;
     log_info := [] |}.

(** [init()], given [os.LookupEnv]. *)
Definition init (LookupEnv : string -> option string) (w : World) : World :=
  match LookupEnv "DUPLICACY_DECRYPT_WITH_HMACSHA256"%string with
  | Some value => if negb (String.eqb value "0") then set_flag true w else w
  | None => w
  end.

(** A non-blocking receive: the oldest pooled buffer, or [new(bytes.Buffer)]. *)
Definition AllocateChunkBuffer (w : World) : option Buffer * World :=
  match chunkBufferPool w with
  | buffer :: rest => (buffer, set_pool rest w)
  | [] => (Some [], w)
  end.

(** A non-blocking send: dropped, with a log line, when the pool is full. *)
Definition ReleaseChunkBuffer (buffer : option Buffer) (w : World) : World :=
  if length (chunkBufferPool w) <? chunkBufferPool_cap
  then set_pool (chunkBufferPool w ++ [buffer]) w
  else LOG_INFO "CHUNK_BUFFER" "Discarding a free chunk buffer due to a full pool" w.

(** ** The chunk *)

Record Chunk : Type := {
  buffer : option Buffer;
  size : nat;
  hasher : option Hasher;
  hash : bytes;
  id : string;
  config : Config
}.

Definition set_buffer (b : option Buffer) (c : Chunk) : Chunk :=
  {| buffer := b; size := size c; hasher := hasher c; hash := hash c;
     id := id c; config := config c |}.

Definition set_size (n : nat) (c : Chunk) : Chunk :=
  {| buffer := buffer c; size := n; hasher := hasher c; hash := hash c;
     id := id c; config := config c |}.

Definition set_hasher (h : option Hasher) (c : Chunk) : Chunk :=
  {| buffer := buffer c; size := size c; hasher := h; hash := hash c;
     id := id c; config := config c |}.

Definition set_hash (h : bytes) (c : Chunk) : Chunk :=
  {| buffer := buffer c; size := size c; hasher := hasher c; hash := h;
     id := id c; config := config c |}.

Definition set_id (i : string) (c : Chunk) : Chunk :=
  {| buffer := buffer c; size := size c; hasher := hasher c; hash := hash c;
     id := i; config := config c |}.

(** Magic word to identify a duplicacy format encrypted file, plus a version
    number: ["duplicacy\000"]. *)
Definition ENCRYPTION_HEADER : string :=
  ("duplicacy" ++ String (ascii_of_nat 0) EmptyString)%string.

Definition GetLength (c : Chunk) : nat :=
  match buffer c with
  | Some b => length (Buffer_Bytes b)
  | None => size c
  end.

Definition GetBytes (c : Chunk) : result bytes :=
  match buffer c with
  | Some b => Ok (Buffer_Bytes b)
  | None => Panic
  end.

Definition Reset (hashNeeded : bool) (c : Chunk) : Chunk :=
  let c1 := match buffer c with
            | Some b => set_buffer (Some (Buffer_Reset b)) c
            | None => c
            end in
  let c2 := if hashNeeded
            then set_hasher (Some (NewKeyedHasher (config c1) (HashKey (config c1)))) c1
            else set_hasher None c1 in
  set_size 0 (set_id "" (set_hash [] c2)).

(** [Write] returns [(len(p), nil)].  [chunk.size += len(p)] is written
    without the wrap-around of [int]: the sum is the code's as long as it
    [fits_int] (see [int_size_after_fits]). *)
Definition Write (p : bytes) (c : Chunk) : nat * Chunk :=
  let c1 := match buffer c with
            | None => set_size (size c + length p) c
            | Some b => set_buffer (Some (Buffer_Write b p)) c
            end in
  let c2 := match hasher c1 with
            | Some h => set_hasher (Some (Hasher_Write h p)) c1
            | None => c1
            end in
  (length p, c2).

Definition GetHash (c : Chunk) : result (string * Chunk) :=
  (c1 <- (if length (hash c) =? 0
          then h <- of_option (hasher c) ;; Ok (set_hash (Hasher_Sum h) c)
          else Ok c) ;;
   Ok (string_of_list_byte (hash c1), c1))%result.

Definition GetID (c : Chunk) : result (string * Chunk) :=
  (if String.length (id c) =? 0
   then
     c1 <- (if length (hash c) =? 0
            then h <- of_option (hasher c) ;; Ok (set_hash (Hasher_Sum h) c)
            else Ok c) ;;
     let id' := pbkdf2_Key_sha512 (IDKey (config c1)) (hash c1) 13 64 in
     let c2 := set_id (zbase32_EncodeToString id') c1 in
     Ok (id c2, c2)
   else Ok (id c, c))%result.

(** ** threefishCTR *)

(** The first five statements of [threefishCTR]: [argon2.DefaultConfig()]
    with four fields overwritten. *)
Definition threefishCTR_cfg : Argon2Config :=
  {| HashLength := BlockSize1024 + TweakSize + BlockSize512 + BlockSize1024;
     SaltLength := SaltLength argon2_DefaultConfig;
     TimeCost := 4;
     MemoryCost := N.shiftl 1 15;
     Parallelism := 2;
     Mode := Mode argon2_DefaultConfig;
     Version := Version argon2_DefaultConfig |}.

Definition threefishCTR (encryptionKey salt src : bytes) (enc : bool)
  : result (bytes * bytes) :=
  (let cfg := threefishCTR_cfg in
   raw <- of_sum (argon2_Hash cfg encryptionKey salt) ;;
   tweak <- of_option (slice raw BlockSize1024 (BlockSize1024 + TweakSize)) ;;
   let t3fTweak := copy (repeat x00 TweakSize) tweak in
   key <- of_option (slice raw 0 BlockSize1024) ;;
   t3f <- of_sum (threefish_NewCipher t3fTweak key) ;;
   (* Encrypt it. *)
   iv <- of_option (slice_from raw (BlockSize1024 + TweakSize + BlockSize512)) ;;
   dst <- of_option (CTR_XORKeyStream t3f iv src) ;;
   skeinMacKey <- of_option (slice raw (BlockSize1024 + TweakSize)
                                       (BlockSize1024 + TweakSize + BlockSize512)) ;;
   let skienMac :=
     skein_Sum 64 skeinMacKey PERSONALIZATION
       (bytes_of_string ENCRYPTION_HEADER ++ salt ++ (if enc then dst else src)) in
   Ok (dst, skienMac))%result.

(** ** Encrypt and Decrypt *)

(** What a running [Encrypt] or [Decrypt] can change: the chunk behind the
    receiver, the local variable [encryptedBuffer] (read again by the
    deferred release), and the package state. *)
Record Frame : Type := {
  f_chunk : Chunk;
  f_encryptedBuffer : option Buffer;
  f_world : World
}.

(** One statement: falls through with a value, executes [return err], or
    panics. *)
Inductive step (A : Type) : Type :=
| Next (a : A) (f : Frame)
| Returns (err : option error) (f : Frame)
| Panics.
Arguments Next {A} a f.
Arguments Returns {A} err f.
Arguments Panics {A}.

Definition M (A : Type) : Type := Frame -> step A.

Definition mret {A} (a : A) : M A := fun f => Next a f.

Definition mbind {A B} (m : M A) (k : A -> M B) : M B :=
  fun f =>
    match m f with
    | Next a f' => k a f'
    | Returns err f' => Returns err f'
    | Panics => Panics
    end.

Declare Scope body_scope.
Delimit Scope body_scope with body.
Notation "x <- m ;; k" := (mbind m (fun x => k))
  (at level 61, m at next level, right associativity) : body_scope.
Notation "' p <- m ;; k" := (mbind m (fun x => match x with p => k end))
  (at level 61, p pattern, m at next level, right associativity) : body_scope.

(** [return err] *)
Definition return_ {A} (err : option error) : M A := fun f => Returns err f.

(** [v, err := e; if err != nil { return err }] for a pure [e]. *)
Definition try {A} (r : result A) : M A :=
  fun f =>
    match r with
    | Ok a => Next a f
    | Err e => Returns (Some e) f
    | Panic => Panics
    end.

Definition update_chunk (g : Chunk -> Chunk) : M unit :=
  fun f => Next tt {| f_chunk := g (f_chunk f);
                      f_encryptedBuffer := f_encryptedBuffer f;
                      f_world := f_world f |}.

Definition get_config : M Config := fun f => Next (config (f_chunk f)) f.

(** [encryptedBuffer.Write(p)] *)
Definition encryptedBuffer_Write (p : bytes) : M unit :=
  fun f =>
    match f_encryptedBuffer f with
    | Some b => Next tt {| f_chunk := f_chunk f;
                           f_encryptedBuffer := Some (Buffer_Write b p);
                           f_world := f_world f |}
    | None => Panics
    end.

(** [encryptedBuffer.Bytes()] *)
Definition encryptedBuffer_Bytes : M bytes :=
  fun f =>
    match f_encryptedBuffer f with
    | Some b => Next (Buffer_Bytes b) f
    | None => Panics
    end.

(** [chunk.buffer.Bytes()] *)
Definition chunk_buffer_Bytes : M bytes :=
  fun f =>
    match buffer (f_chunk f) with
    | Some b => Next (Buffer_Bytes b) f
    | None => Panics
    end.

(** [chunk.buffer.Reset()] *)
Definition chunk_buffer_Reset : M unit :=
  fun f =>
    match buffer (f_chunk f) with
    | Some b => update_chunk (set_buffer (Some (Buffer_Reset b))) f
    | None => Panics
    end.

(** [chunk.buffer.Write(p)] *)
Definition chunk_buffer_Write (p : bytes) : M unit :=
  fun f =>
    match buffer (f_chunk f) with
    | Some b => update_chunk (set_buffer (Some (Buffer_Write b p))) f
    | None => Panics
    end.

(** [chunk.buffer, encryptedBuffer = encryptedBuffer, chunk.buffer] *)
Definition swap_buffers : M unit :=
  fun f => Next tt {| f_chunk := set_buffer (f_encryptedBuffer f) (f_chunk f);
                      f_encryptedBuffer := buffer (f_chunk f);
                      f_world := f_world f |}.

(** [buf = make([]byte, n); _, err := rand.Read(buf); if err != nil { return err }] *)
Definition rand_Read_or_return (n : nat) : M bytes :=
  fun f =>
    let (r, s') := rand_Read n (rand_state (f_world f)) in
    let f' := {| f_chunk := f_chunk f;
                 f_encryptedBuffer := f_encryptedBuffer f;
                 f_world := set_rand s' (f_world f) |} in
    match r with
    | inl buf => Next buf f'
    | inr e => Returns (Some e) f'
    end.

(** How a call of [Encrypt] or [Decrypt] ends. *)
Inductive outcome : Type :=
| Returned (err : option error) (c : Chunk) (w : World)
| Panicked.

(** The prologue and the deferred call shared by [Encrypt] and [Decrypt]:
<<
    encryptedBuffer := AllocateChunkBuffer()
    encryptedBuffer.Reset()
    defer func() { ReleaseChunkBuffer(encryptedBuffer) }()
>>
    The closure reads the variable when the function returns. *)
Definition with_encryptedBuffer (body : M Empty_set) (c : Chunk) (w : World)
  : outcome :=
  let (allocated, w1) := AllocateChunkBuffer w in
  match allocated with
  | None => Panicked
  | Some b =>
      match body {| f_chunk := c;
                    f_encryptedBuffer := Some (Buffer_Reset b);
                    f_world := w1 |} with
      | Next a _ => match a with end
      | Returns err f =>
          Returned err (f_chunk f) (ReleaseChunkBuffer (f_encryptedBuffer f) (f_world f))
      | Panics => Panicked
      end
  end.

Definition Encrypt_body (encryptionKey : bytes) (derivationKey : string)
  : M Empty_set :=
  ('(key, salt) <-
     (if 0 <? length encryptionKey
      then
        let key := if 0 <? String.length derivationKey
                   then pbkdf2_Key_sha512 encryptionKey
                          (bytes_of_string derivationKey) 100 128
                   else encryptionKey in
        (* Start with the magic number and the version number. *)
        _ <- encryptedBuffer_Write (bytes_of_string ENCRYPTION_HEADER) ;;
        (* Followed by the nonce *)
        salt <- rand_Read_or_return 32 ;;
        _ <- encryptedBuffer_Write salt ;;
        mret (key, salt)
      else mret ([], [])) ;;
   src <- chunk_buffer_Bytes ;;
   cfg <- get_config ;;
   compressed <- try (of_sum (zstd_CompressLevel src (CompressionLevel cfg))) ;;
   if length encryptionKey =? 0
   then
     _ <- encryptedBuffer_Write compressed ;;
     _ <- swap_buffers ;;
     return_ None
   else
     '(encrypted, skeinMac) <- try (threefishCTR key salt compressed true) ;;
     _ <- encryptedBuffer_Write skeinMac ;;
     _ <- encryptedBuffer_Write encrypted ;;
     _ <- swap_buffers ;;
     return_ None)%body.

Definition Encrypt (encryptionKey : bytes) (derivationKey : string)
  : Chunk -> World -> outcome :=
  with_encryptedBuffer (Encrypt_body encryptionKey derivationKey).

(** The tail shared by both branches of [Decrypt]:
<<
    chunk.buffer.Write(decompressed)
    chunk.hasher = chunk.config.NewKeyedHasher(chunk.config.HashKey)
    chunk.hasher.Write(decompressed)
    chunk.hash = nil
    return nil
>> *)
Definition install_plaintext (decompressed : bytes) : M Empty_set :=
  (_ <- chunk_buffer_Write decompressed ;;
   cfg <- get_config ;;
   _ <- update_chunk (set_hasher (Some (NewKeyedHasher cfg (HashKey cfg)))) ;;
   _ <- update_chunk (fun c => match hasher c with
                               | Some h => set_hasher (Some (Hasher_Write h decompressed)) c
                               | None => c
                               end) ;;
   _ <- update_chunk (set_hash []) ;;
   return_ None)%body.

Definition Decrypt_body (encryptionKey : bytes) (derivationKey : string)
  : M Empty_set :=
  (_ <- swap_buffers ;;
   if 0 <? length encryptionKey
   then
     let key := if 0 <? String.length derivationKey
                then pbkdf2_Key_sha512 encryptionKey
                       (bytes_of_string derivationKey) 100 128
                else encryptionKey in
     let headerLength := String.length ENCRYPTION_HEADER in
     let offset := headerLength + 32 + BlockSize512 in
     envelope <- encryptedBuffer_Bytes ;;
     if length envelope <? offset
     then return_ (Some ("No enough encrypted data (" ++ fmt_d (length envelope)
                           ++ " bytes) provided")%string)
     else
       magic <- try (of_option (slice envelope 0 (headerLength - 1))) ;;
       if negb (String.eqb (string_of_list_byte magic)
                           (substring 0 (headerLength - 1) ENCRYPTION_HEADER))
       then return_ (Some "The storage doesn't seem to be encrypted"%string)
       else
         version <- try (of_option (index envelope (headerLength - 1))) ;;
         if negb (byte_val version =? 0)
         then return_ (Some ("Unsupported encryption version "
                               ++ fmt_d (byte_val version))%string)
         else
           salt <- try (of_option (slice envelope headerLength (headerLength + 32))) ;;
           chunkSkeinMac <- try (of_option (slice envelope (headerLength + 32) offset)) ;;
           ciphertext <- try (of_option (slice_from envelope offset)) ;;
           '(decrypted, skeinMac) <- try (threefishCTR key salt ciphertext false) ;;
           if negb (bytes_Compare chunkSkeinMac skeinMac =? 0)%Z
           then return_ (Some "Unable to verify MAC"%string)
           else
             _ <- chunk_buffer_Reset ;;
             decompressed <- try (of_sum (zstd_Decompress decrypted)) ;;
             install_plaintext decompressed
   else
     _ <- chunk_buffer_Reset ;;
     envelope <- encryptedBuffer_Bytes ;;
     decompressed <- try (of_sum (zstd_Decompress envelope)) ;;
     install_plaintext decompressed)%body.

Definition Decrypt (encryptionKey : bytes) (derivationKey : string)
  : Chunk -> World -> outcome :=
  with_encryptedBuffer (Decrypt_body encryptionKey derivationKey).

End ChunkModel.

Arguments Next {L A} a f.
Arguments Returns {L A} err f.
Arguments Panics {L A}.

(** ** The Sia storage backend: looking files up *)

Section SiaModel.

(** [api.FileInfo] and [api.RenterFiles] of github.com/NebulousLabs/Sia/api,
    with the fields the backend reads; [Filesize] is a [uint64]. *)
Record FileInfo : Type := {
  SiaPath : string;
  Filesize : Z;
  Available : bool
}.

Record RenterFiles : Type := {
  Files : list FileInfo
}.

(** The [apiClient] interface, as far as the lookups use it:
    [client.Get("/renter/files", &rf)] either fails or fills [rf]. *)
Record apiClient : Type := {
  Get_RenterFiles : string -> RenterFiles + error
}.

Record SIAStorage : Type := {
  storageDir : string;
  client : apiClient
}.

(** [int64(x)] for a [uint64] [x]. *)
Definition int64_of_uint64 (x : Z) : Z :=
  (if x mod 2 ^ 64 <? 2 ^ 63 then x mod 2 ^ 64 else x mod 2 ^ 64 - 2 ^ 64)%Z.

(** The [for _, fi := range rf.Files] loop of [GetFileInfo] with the
    [return] after it. *)
Fixpoint GetFileInfo_loop (files : list FileInfo) (fPath : string)
  : bool * bool * Z * option error :=
  match files with
  | fi :: rest =>
      if String.eqb (SiaPath fi) fPath
      then (true, false, int64_of_uint64 (Filesize fi), None)
      else GetFileInfo_loop rest fPath
  | [] => (false, false, 0%Z, None)
  end.

(** [GetFileInfo] returns [(exist, isDir, size, err)]. *)
Definition GetFileInfo (storage : SIAStorage) (threadIndex : Z) (filePath : string)
  : bool * bool * Z * option error :=
  match Get_RenterFiles (client storage) "/renter/files" with
  | inr err => (false, false, 0%Z, Some err)
  | inl rf =>
      let fPath := (storageDir storage ++ "/" ++ filePath)%string in
      GetFileInfo_loop (Files rf) fPath
  end.

(** [FindChunk] returns [(filePath, exist, size, err)]. *)
Definition FindChunk (storage : SIAStorage) (threadIndex : Z) (chunkID : string)
  (isFossil : bool) : string * bool * Z * option error :=
  let filePath := ("chunks/" ++ chunkID)%string in
  let filePath := if isFossil then (filePath ++ ".fsl")%string else filePath in
  let '(exist_, _, size_, err) := GetFileInfo storage threadIndex filePath in
  match err with
  | Some e => (""%string, false, 0%Z, Some e)
  | None => (filePath, exist_, size_, err)
  end.

End SiaModel.

(** ** More of the chunk file: VerifyID *)

Section VerifyModel.

Context {L : Libs}.

(** Modelled from the spec: [LOG_ERROR] is defined in a file of the package
    that is not part of this development; a chunk-id mismatch "is a fatal
    integrity error".  The call is reported as the value of [VerifyID]: the
    log id and the formatted message, or [None] when [LOG_ERROR] is not
    reached. *)
Definition LOG_ERROR (id msg : string) : option (string * string) :=
  Some (id, msg).

(** [VerifyID] recomputes hash and id from the bytes in the buffer and
    compares the id with [chunk.GetID()]; [GetID] is called a second time
    for the message. *)
Definition VerifyID (c : Chunk) : result (option (string * string) * Chunk) :=
  (b <- of_option (buffer c) ;;
   let hasher := Hasher_Write (NewKeyedHasher (config c) (HashKey (config c)))
                   (Buffer_Bytes b) in
   let hash := Hasher_Sum hasher in
   let id' := pbkdf2_Key_sha512 (IDKey (config c)) hash 13 64 in
   let chunkID := zbase32_EncodeToString id' in
   r1 <- GetID c ;;
   if negb (String.eqb chunkID (fst r1))
   then
     r2 <- GetID (snd r1) ;;
     b2 <- of_option (buffer (snd r2)) ;;
     Ok (LOG_ERROR "CHUNK_ID"
           ("The chunk id should be " ++ chunkID ++ " instead of " ++ fst r2
              ++ ", length: " ++ fmt_d (length (Buffer_Bytes b2)))%string,
         snd r2)
   else Ok (None, snd r1))%result.

(** [CreateChunk].  A [bytes.Buffer] is modelled by its contents, so the
    capacity test and [buffer.Grow], which change the capacity only, leave
    no trace here; [buffer.Reset()] on a nil pointer from the pool panics. *)
Definition CreateChunk (cfg : Config) (bufferNeeded : bool) (w : World)
  : result (Chunk * World) :=
  if bufferNeeded
  then
    let (allocated, w1) := AllocateChunkBuffer w in
    match allocated with
    | Some b =>
        Ok ({| buffer := Some (Buffer_Reset b); size := 0; hasher := None;
               hash := []; id := ""; config := cfg |}, w1)
    | None => Panic
    end
  else
    Ok ({| buffer := None; size := 0; hasher := None; hash := []; id := "";
           config := cfg |}, w).

End VerifyModel.

(** ** More of the Sia backend: ListFiles *)

(** [s[:n]] and [s[n:]] of a Go string; the code takes them only after
    testing [len(s) > n]. *)
Definition string_to (s : string) (n : nat) : string := substring 0 n s.
Definition string_from (s : string) (n : nat) : string :=
  substring n (String.length s - n) s.

(** [strings.Split(s, "/")]: the pieces of [s] between the slashes. *)
Fixpoint strings_Split_slash (s : string) : list string :=
  match s with
  | EmptyString => [EmptyString]
  | String a rest =>
      if Ascii.eqb a "/"
      then EmptyString :: strings_Split_slash rest
      else match strings_Split_slash rest with
           | piece :: pieces => String a piece :: pieces
           | [] => [String a EmptyString]
           end
  end.

(** The first statement of [ListFiles]:
    [if len(dir) > 0 && dir[len(dir)-1] != '/' { dir += "/" }]. *)
Definition ListFiles_dir (dir : string) : string :=
  if (0 <? String.length dir)
     && negb (match String.get (String.length dir - 1) dir with
              | Some a => Ascii.eqb a "/"
              | None => false
              end)
  then (dir ++ "/")%string
  else dir.

(** The test both [if]s of every loop of [ListFiles] make on a file. *)
Definition ListFiles_under (dirPath : string) (fi : FileInfo) : bool :=
  (String.length dirPath <? String.length (SiaPath fi))
  && String.eqb (string_to (SiaPath fi) (String.length dirPath)) dirPath.

(** The loop of the ["snapshots/"] branch; [paths[0]] exists because
    [strings.Split] never returns an empty slice. *)
Fixpoint ListFiles_snapshots_loop (fis : list FileInfo) (dirPath : string)
  : list string :=
  match fis with
  | [] => []
  | fi :: rest =>
      if ListFiles_under dirPath fi
      then
        let paths := strings_Split_slash
                       (string_from (SiaPath fi) (String.length dirPath)) in
        (hd EmptyString paths ++ "/")%string
          :: ListFiles_snapshots_loop rest dirPath
      else ListFiles_snapshots_loop rest dirPath
  end.

(** The loop of the ["chunks/"] branch: names and sizes, appended together. *)
Fixpoint ListFiles_chunks_loop (fis : list FileInfo) (dirPath : string)
  : list string * list Z :=
  match fis with
  | [] => ([], [])
  | fi :: rest =>
      let '(files, sizes) := ListFiles_chunks_loop rest dirPath in
      if ListFiles_under dirPath fi
      then (string_from (SiaPath fi) (String.length dirPath) :: files,
            int64_of_uint64 (Filesize fi) :: sizes)
      else (files, sizes)
  end.

(** The loop of the last branch. *)
Fixpoint ListFiles_other_loop (fis : list FileInfo) (dirPath : string)
  : list string :=
  match fis with
  | [] => []
  | fi :: rest =>
      if ListFiles_under dirPath fi
      then string_from (SiaPath fi) (String.length dirPath)
             :: ListFiles_other_loop rest dirPath
      else ListFiles_other_loop rest dirPath
  end.

(** [ListFiles] returns [(files, sizes, err)]; a nil slice is [[]]. *)
Definition ListFiles (storage : SIAStorage) (threadIndex : Z) (dir : string)
  : list string * list Z * option error :=
  let dir := ListFiles_dir dir in
  let dirPath := ((storageDir storage ++ "/") ++ dir)%string in
  match Get_RenterFiles (client storage) "/renter/files" with
  | inr err => ([], [], Some err)
  | inl rf =>
      if String.eqb dir "snapshots/"
      then (ListFiles_snapshots_loop (Files rf) dirPath, [], None)
      else if String.eqb dir "chunks/"
      then let '(files, sizes) := ListFiles_chunks_loop (Files rf) dirPath in
           (files, sizes, None)
      else (ListFiles_other_loop (Files rf) dirPath, [], None)
  end.

(** ** A small instance of the libraries

    Stand-ins that satisfy the contracts of [LibsLaws], so that the model can
    be run on concrete inputs. *)

Definition toy_fold (l : bytes) : byte := fold_right byte_xor x00 l.

Definition toy_block (tweak key : bytes) : Block :=
  {| BlockSize := length key;
     Block_Encrypt := fun blk => map (byte_xor (toy_fold tweak)) (xorBytes blk key) |}.

Definition toy_stretch (n : nat) (seed : bytes) : bytes :=
  firstn n (seed ++ repeat (toy_fold seed) n).

Definition toy_byte (n : nat) : byte :=
  match Byte.of_N (N.of_nat n mod 256) with
  | Some b => b
  | None => x00
  end.

#[export] Instance ToyLibs : Libs := {|
  pbkdf2_Key_sha512 := fun password salt iter keyLen =>
    toy_stretch keyLen (password ++ salt);
  argon2_DefaultConfig :=
    {| HashLength := 32; SaltLength := 16; TimeCost := 3; MemoryCost := 4096;
       Parallelism := 1; Mode := 2; Version := 19 |};
  argon2_Hash := fun cfg pwd salt =>
    if length salt <? 8 then inr "argon2: salt is too short"%string
    else inl (toy_stretch (HashLength cfg) (salt ++ pwd));
  threefish_NewCipher := fun tweak key =>
    if (length key =? 32) || (length key =? 64) || (length key =? 128)
    then inl (toy_block tweak key)
    else inr "invalid key size"%string;
  skein_Sum := fun size key personal msg =>
    toy_stretch size [toy_fold (key ++ personal ++ msg)];
  zstd_CompressLevel := fun src level => inl (x28 :: xb5 :: src);
  zstd_Decompress := fun src =>
    match src with
    | x28 :: xb5 :: rest => inl rest
    | _ => inr "zstd: unknown frame descriptor"%string
    end;
  zbase32_EncodeToString := fun b => string_of_list_byte (map (byte_xor x40) b);
  RandState := nat;
  rand_Read := fun n s => (inl (repeat (toy_byte s) n), S s);
  runtime_NumCPU := 1;
  PERSONALIZATION := bytes_of_string "toy";
  KeyedHasher_Sum := fun cfg key written => toy_stretch 32 (key ++ written)
|}.

(** ** Vocabulary of the statements *)

Section Vocabulary.

Context {L : Libs}.

(** The pool is empty or its oldest entry is a buffer (not a nil pointer):
    [AllocateChunkBuffer] then returns a buffer that can be reset. *)
Definition allocatable (w : World) : Prop :=
  hd_error (chunkBufferPool w) <> Some None.

(** The pool holds no more buffers than the channel has room for. *)
Definition pool_within_cap (w : World) : Prop :=
  length (chunkBufferPool w) <= chunkBufferPool_cap.

(** The four parts of the Argon2 output, in the order [threefishCTR] cuts
    them. *)
Definition blob_cipher_key (raw : bytes) : bytes := firstn BlockSize1024 raw.
Definition blob_tweak (raw : bytes) : bytes :=
  firstn TweakSize (skipn BlockSize1024 raw).
Definition blob_mac_key (raw : bytes) : bytes :=
  firstn BlockSize512 (skipn (BlockSize1024 + TweakSize) raw).
Definition blob_iv (raw : bytes) : bytes :=
  skipn (BlockSize1024 + TweakSize + BlockSize512) raw.

(** The value of the local variable [key] of [Encrypt] and [Decrypt] when
    [encryptionKey] is not empty. *)
Definition derived_key (encryptionKey : bytes) (derivationKey : string) : bytes :=
  if 0 <? String.length derivationKey
  then pbkdf2_Key_sha512 encryptionKey (bytes_of_string derivationKey) 100 128
  else encryptionKey.

(** The chunk after [Write(p)] for each [p] of [ps], in order. *)
Definition write_all (ps : list bytes) (c : Chunk) : Chunk :=
  fold_left (fun c p => snd (Write p c)) ps c.

(** The chunk once [Decrypt] has installed the plaintext [P]. *)
Definition with_plaintext (P : bytes) (c : Chunk) : Chunk :=
  set_hash []
    (set_hasher
       (Some (Hasher_Write (NewKeyedHasher (config c) (HashKey (config c))) P))
       (set_buffer (Some P) c)).

(** The package state when a call that allocated its scratch buffer from
    [w] returns and releases [released]. *)
Definition after_call (released : Buffer) (w : World) : World :=
  ReleaseChunkBuffer (Some released) (snd (AllocateChunkBuffer w)).

(** The identifier the specification assigns to a chunk hash:
    [base32z(PBKDF2-HMAC-SHA512(password = IDKey, salt = hash,
    iterations = 13, dkLen = 64))]. *)
Definition expected_id (cfg : Config) (hash : bytes) : string :=
  zbase32_EncodeToString (pbkdf2_Key_sha512 (IDKey cfg) hash 13 64).

(** The same outcome in a package state changed by [g]. *)
Definition in_world (g : World -> World) (o : outcome) : outcome :=
  match o with
  | Returned err c w => Returned err c (g w)
  | Panicked => Panicked
  end.

(** An environment in which only [DUPLICACY_DECRYPT_WITH_HMACSHA256] is set. *)
Definition env_with_flag (value : string) (name : string) : option string :=
  if String.eqb name "DUPLICACY_DECRYPT_WITH_HMACSHA256" then Some value else None.

(** A frame, and the result of a statement, in a package state changed
    by [g]. *)
Definition frame_in (g : World -> World) (f : Frame) : Frame :=
  {| f_chunk := f_chunk f;
     f_encryptedBuffer := f_encryptedBuffer f;
     f_world := g (f_world f) |}.

Definition step_in {A} (g : World -> World) (s : step A) : step A :=
  match s with
  | Next a f => Next a (frame_in g f)
  | Returns err f => Returns err (frame_in g f)
  | Panics => Panics
  end.

End Vocabulary.

(** The path under which [FindChunk] looks a chunk up: ["chunks/" + id],
    with [".fsl"] appended for a fossil. *)
Definition chunk_path (chunkID : string) (isFossil : bool) : string :=
  if isFossil then (("chunks/" ++ chunkID) ++ ".fsl")%string
  else ("chunks/" ++ chunkID)%string.

(** A client whose every request fails, and a storage that uses it. *)
Definition failing_client : apiClient :=
  {| Get_RenterFiles := fun _ => inr "dial tcp 127.0.0.1:9980: connection refused"%string |}.

Definition failing_storage : SIAStorage :=
  {| storageDir := "backup"; client := failing_client |}.

(** A path segment: a string without ['/']. *)
Definition no_slash (seg : string) : Prop :=
  ~ In "/"%char (list_ascii_of_string seg).

(** ** Concrete inputs *)

Definition toy_config : Config :=
  {| MaximumChunkSize := 16; CompressionLevel := 3; HashKey := [x01]; IDKey := [x02] |}.

(** A chunk with a buffer that still holds old bytes. *)
Definition toy_chunk : Chunk :=
  {| buffer := Some [xff]; size := 0; hasher := None; hash := []; id := "";
     config := toy_config |}.

Definition toy_world : World := World_initial 7.

Definition toy_key : bytes := repeat x41 32.

Definition toy_pieces : list bytes :=
  [bytes_of_string "hello "; bytes_of_string "world"].

(** [Reset(true)], then ["hello "] and ["world"] written. *)
Definition toy_plain : Chunk := write_all toy_pieces (Reset true toy_chunk).

(** The hash read before encrypting, and the chunk after reading it. *)
Definition toy_hashed : string * Chunk :=
  match GetHash toy_plain with
  | Ok r => r
  | _ => (""%string, toy_plain)
  end.

(** The chunk and the package state after encrypting under [toy_key]. *)
Definition toy_encrypted : Chunk * World :=
  match Encrypt toy_key "chunk" (snd toy_hashed) toy_world with
  | Returned _ c w => (c, w)
  | Panicked => (toy_plain, toy_world)
  end.

(** The envelope of [toy_encrypted] with its MAC (bytes 42..106) zeroed. *)
Definition toy_tampered : Chunk :=
  match buffer (fst toy_encrypted) with
  | Some envelope =>
      set_buffer (Some (firstn 42 envelope ++ repeat x00 64 ++ skipn 106 envelope))
        (fst toy_encrypted)
  | None => fst toy_encrypted
  end.

Definition toy_tampered_envelope : bytes :=
  match buffer toy_tampered with
  | Some envelope => envelope
  | None => []
  end.

(** A chunk holding three bytes, and envelopes with a bad magic word and
    with version byte 1. *)
Definition toy_short : Chunk := set_buffer (Some [x01; x02; x03]) toy_chunk.

Definition toy_bad_magic : Chunk :=
  set_buffer (Some (bytes_of_string "duplicity" ++ repeat x00 97)) toy_chunk.

Definition toy_version_1 : Chunk :=
  set_buffer (Some (bytes_of_string "duplicacy" ++ x01 :: repeat x00 96)) toy_chunk.

(** A chunk whose hash has been read and whose identifier has not. *)
Definition toy_hash_only : Chunk :=
  {| buffer := None; size := 11; hasher := None; hash := [x0a; x0b]; id := "";
     config := toy_config |}.

(** A storage with two files. *)
Definition toy_storage : SIAStorage :=
  {| storageDir := "backup";
     client := {| Get_RenterFiles := fun _ =>
       inl {| Files := [ {| SiaPath := "backup/chunks/abc"; Filesize := 119;
                            Available := true |};
                         {| SiaPath := "backup/snapshots/host/1"; Filesize := 40;
                            Available := true |} ] |} |} |}.

(** The chunk and the package state after decrypting [toy_encrypted]. *)
Definition toy_decrypted : Chunk * World :=
  match Decrypt toy_key "chunk" (fst toy_encrypted) (snd toy_encrypted) with
  | Returned _ c w => (c, w)
  | Panicked => (toy_plain, toy_world)
  end.

(** [toy_plain] with an id cached that does not belong to its bytes. *)
Definition toy_stale : Chunk := set_id "zzz" toy_plain.

(** A chunk object used twice.  [Reset(true)], ["hello "] written and the
    id read ... *)
Definition toy_first_id : string * Chunk :=
  match GetID (write_all [bytes_of_string "hello "] (Reset true toy_chunk)) with
  | Ok r => r
  | _ => (""%string, toy_chunk)
  end.

(** ... then ["world"] written, the chunk encrypted ... *)
Definition toy_reencrypted : Chunk * World :=
  match Encrypt toy_key "chunk"
          (snd (Write (bytes_of_string "world") (snd toy_first_id))) toy_world with
  | Returned _ c w => (c, w)
  | Panicked => (toy_chunk, toy_world)
  end.

(** ... decrypted again ... *)
Definition toy_redecrypted : Chunk * World :=
  match Decrypt toy_key "chunk" (fst toy_reencrypted) (snd toy_reencrypted) with
  | Returned _ c w => (c, w)
  | Panicked => (toy_chunk, toy_world)
  end.

(** ... and the hash read. *)
Definition toy_rehashed : string * Chunk :=
  match GetHash (fst toy_redecrypted) with
  | Ok r => r
  | _ => (""%string, toy_chunk)
  end.

Definition toy_salt : bytes := repeat x07 32.

(** What [threefishCTR] makes of three bytes. *)
Definition toy_ctr : bytes * bytes :=
  match threefishCTR toy_key toy_salt [x01; x02; x03] true with
  | Ok r => r
  | _ => ([], [])
  end.

(** A storage with chunks, a fossil, a chunk in a subdirectory and three
    snapshot files, two of them revisions of the same snapshot id. *)
Definition toy_files : RenterFiles :=
  {| Files := [ {| SiaPath := "backup/chunks/abc"; Filesize := 119;
                   Available := true |};
                {| SiaPath := "backup/chunks/abd.fsl"; Filesize := 200;
                   Available := true |};
                {| SiaPath := "backup/chunks/ab/cd"; Filesize := 7;
                   Available := true |};
                {| SiaPath := "backup/snapshots/host/1"; Filesize := 40;
                   Available := true |};
                {| SiaPath := "backup/snapshots/host/2"; Filesize := 41;
                   Available := true |};
                {| SiaPath := "backup/snapshots/other/1"; Filesize := 42;
                   Available := true |} ] |}.

Definition toy_listing_storage : SIAStorage :=
  {| storageDir := "backup";
     client := {| Get_RenterFiles := fun _ => inl toy_files |} |}.

(** * Properties *)

(** ** Bytes, slices and the counter mode *)

Lemma byte_of_to_N (b : byte) : Byte.of_N (Byte.to_N b) = Some b.
Proof. apply Byte.of_to_N. Qed.

Lemma byte_to_N_lt (b : byte) : (Byte.to_N b < 256)%N.
Proof. pose proof (Byte.to_N_bounded b). lia. Qed.

Lemma byte_to_N_inj (a b : byte) : Byte.to_N a = Byte.to_N b -> a = b.
Proof.
  intros H. pose proof (byte_of_to_N a) as Ha. rewrite H, byte_of_to_N in Ha.
  congruence.
Qed.

Lemma lxor_lt_256 (x y : N) : (x < 256 -> y < 256 -> N.lxor x y < 256)%N.
Proof.
  intros Hx Hy.
  destruct (N.eq_dec (N.lxor x y) 0) as [E | E]; [rewrite E; lia |].
  apply N.log2_lt_pow2 with (b := 8%N); [lia |].
  eapply N.le_lt_trans; [apply N.log2_lxor |].
  apply N.max_lub_lt.
  - destruct (N.eq_dec x 0) as [-> | Hx0]; [reflexivity |].
    apply N.log2_lt_pow2; lia.
  - destruct (N.eq_dec y 0) as [-> | Hy0]; [reflexivity |].
    apply N.log2_lt_pow2; lia.
Qed.

Lemma byte_xor_to_N (a b : byte) :
  Byte.to_N (byte_xor a b) = N.lxor (Byte.to_N a) (Byte.to_N b).
Proof.
  unfold byte_xor.
  destruct (Byte.of_N (N.lxor (Byte.to_N a) (Byte.to_N b))) as [c |] eqn:E.
  - apply Byte.to_of_N in E. exact E.
  - exfalso. apply Byte.of_N_None_iff in E.
    pose proof (lxor_lt_256 _ _ (byte_to_N_lt a) (byte_to_N_lt b)). lia.
Qed.

Lemma byte_xor_involutive (a k : byte) : byte_xor (byte_xor a k) k = a.
Proof.
  apply byte_to_N_inj. rewrite !byte_xor_to_N.
  rewrite N.lxor_assoc, N.lxor_nilpotent, N.lxor_0_r. reflexivity.
Qed.

Lemma xorBytes_length (src ks : bytes) : length (xorBytes src ks) = length src.
Proof.
  revert ks. induction src as [| s src IH]; intros ks; [reflexivity |].
  destruct ks; simpl; now rewrite IH.
Qed.

Lemma xorBytes_involutive (src ks : bytes) : xorBytes (xorBytes src ks) ks = src.
Proof.
  revert ks. induction src as [| s src IH]; intros ks; [reflexivity |].
  destruct ks as [| k ks]; simpl.
  - now rewrite IH.
  - now rewrite byte_xor_involutive, IH.
Qed.

(** Counter mode is its own inverse: running it on its output, with the
    same cipher and IV, gives the input back. *)
Lemma CTR_XORKeyStream_involutive (b : Block) (iv src dst : bytes) :
  CTR_XORKeyStream b iv src = Some dst ->
  CTR_XORKeyStream b iv dst = Some src.
Proof.
  unfold CTR_XORKeyStream. destruct (length iv =? BlockSize b); [| discriminate].
  intros [= <-]. now rewrite xorBytes_length, xorBytes_involutive.
Qed.

Lemma CTR_XORKeyStream_length (b : Block) (iv src dst : bytes) :
  CTR_XORKeyStream b iv src = Some dst -> length dst = length src.
Proof.
  unfold CTR_XORKeyStream. destruct (length iv =? BlockSize b); [| discriminate].
  intros [= <-]. apply xorBytes_length.
Qed.

Lemma bytes_Compare_refl (a : bytes) : bytes_Compare a a = 0%Z.
Proof.
  induction a as [| x a IH]; [reflexivity |].
  simpl. now rewrite N.compare_refl.
Qed.

Lemma bytes_Compare_eq (a b : bytes) : bytes_Compare a b = 0%Z <-> a = b.
Proof.
  split; [| intros ->; apply bytes_Compare_refl].
  revert b. induction a as [| x a IH]; intros [| y b]; simpl; try discriminate.
  - reflexivity.
  - destruct (N.compare_spec (Byte.to_N x) (Byte.to_N y)) as [E | |]; try discriminate.
    intros H. apply byte_to_N_inj in E. apply IH in H. congruence.
Qed.

Lemma string_of_list_byte_inj (a b : bytes) :
  string_of_list_byte a = string_of_list_byte b -> a = b.
Proof.
  intros H. rewrite <- (list_byte_of_string_of_list_byte a).
  rewrite <- (list_byte_of_string_of_list_byte b). now rewrite H.
Qed.

Lemma slice_Some (s : bytes) (lo hi : nat) :
  lo <= hi -> hi <= length s ->
  slice s lo hi = Some (firstn (hi - lo) (skipn lo s)).
Proof.
  intros H1 H2. unfold slice.
  destruct (Nat.leb_spec lo hi); [| lia].
  destruct (Nat.leb_spec hi (length s)); [| lia]. reflexivity.
Qed.

Lemma slice_from_Some (s : bytes) (lo : nat) :
  lo <= length s -> slice_from s lo = Some (skipn lo s).
Proof.
  intros H. unfold slice_from. rewrite slice_Some by lia.
  f_equal. apply firstn_all2. rewrite length_skipn. lia.
Qed.

Lemma slice_length (s r : bytes) (lo hi : nat) :
  slice s lo hi = Some r -> length r = hi - lo /\ hi <= length s.
Proof.
  unfold slice.
  destruct (Nat.leb_spec lo hi); [| discriminate].
  destruct (Nat.leb_spec hi (length s)); [| discriminate].
  intros [= <-]. rewrite length_firstn, length_skipn. lia.
Qed.

Lemma slice_app_prefix (a rest : bytes) (hi : nat) :
  hi = length a -> slice (a ++ rest) 0 hi = Some a.
Proof.
  intros ->. rewrite slice_Some by (rewrite ?length_app; lia).
  rewrite Nat.sub_0_r. simpl. rewrite firstn_app, Nat.sub_diag, firstn_all.
  simpl. apply f_equal, app_nil_r.
Qed.

Lemma slice_app_mid (a b rest : bytes) (lo hi : nat) :
  lo = length a -> hi = lo + length b -> slice (a ++ b ++ rest) lo hi = Some b.
Proof.
  intros -> ->. rewrite slice_Some by (rewrite ?length_app; lia).
  replace (length a) with (length a + 0) at 2 by lia.
  rewrite skipn_app, skipn_all, Nat.add_0_r, Nat.sub_diag. simpl.
  replace (length a + length b - length a) with (length b) by lia.
  rewrite firstn_app, Nat.sub_diag, firstn_all. simpl. apply f_equal, app_nil_r.
Qed.

Lemma slice_from_app (a rest : bytes) (lo : nat) :
  lo = length a -> slice_from (a ++ rest) lo = Some rest.
Proof.
  intros ->. rewrite slice_from_Some by (rewrite length_app; lia).
  rewrite skipn_app, skipn_all, Nat.sub_diag. reflexivity.
Qed.

Lemma index_app (a rest : bytes) (x : byte) (i : nat) :
  i = length a -> index (a ++ x :: rest) i = Some x.
Proof.
  intros ->. unfold index. rewrite nth_error_app2 by lia.
  now rewrite Nat.sub_diag.
Qed.

(** ** The stand-in libraries honour the contracts *)

Lemma toy_stretch_length (n : nat) (seed : bytes) : length (toy_stretch n seed) = n.
Proof.
  unfold toy_stretch. rewrite length_firstn, length_app, repeat_length. lia.
Qed.

#[export] Instance ToyLaws : LibsLaws ToyLibs.
Proof.
  constructor; simpl.
  - intros src level compressed [= <-]. reflexivity.
  - intros cfg pwd salt raw. destruct (length salt <? 8); [discriminate |].
    intros [= <-]. apply toy_stretch_length.
  - intros tweak key blk.
    destruct ((length key =? 32) || (length key =? 64) || (length key =? 128));
      [| discriminate].
    intros [= <-]. reflexivity.
  - intros. apply toy_stretch_length.
  - intros n s buf s' [= <- _]. apply repeat_length.
  - lia.
Qed.

(** ** The chunk envelope *)

Section ChunkProperties.

Context {L : Libs}.

Lemma allocate_Some (w : World) :
  allocatable w -> exists b, fst (AllocateChunkBuffer w) = Some b.
Proof.
  unfold allocatable, AllocateChunkBuffer.
  destruct (chunkBufferPool w) as [| [b |] rest]; simpl; intros H.
  - now exists [].
  - now exists b.
  - congruence.
Qed.

Ltac run_alloc w Hw :=
  let b := fresh "scratch" in
  let E := fresh "Ealloc" in
  let w1 := fresh "w1" in
  let allocated := fresh "allocated" in
  destruct (allocate_Some w Hw) as [b E];
  unfold after_call, Encrypt, Decrypt, with_encryptedBuffer;
  destruct (AllocateChunkBuffer w) as [allocated w1];
  simpl in E; subst allocated.

Ltac unfold_body :=
  unfold install_plaintext, mbind, mret, try, return_, get_config,
    encryptedBuffer_Write, encryptedBuffer_Bytes, chunk_buffer_Bytes,
    chunk_buffer_Reset, chunk_buffer_Write, update_chunk, swap_buffers,
    rand_Read_or_return, Buffer_Bytes, Buffer_Write, Buffer_Reset,
    of_sum, of_option in *.

(** C7. With an empty [encryptionKey], [Encrypt] leaves exactly the zstd
    compression of the plaintext in the chunk's buffer (no header, salt or
    MAC), and [Decrypt] with an empty key decompresses the whole buffer back
    to the plaintext and installs a fresh keyed hasher fed with it. *)
Theorem Encrypt_Decrypt_unencrypted (HL : LibsLaws L)
  (c : Chunk) (w w' : World) (derivationKey derivationKey' : string)
  (P compressed : bytes) :
  buffer c = Some P ->
  allocatable w ->
  allocatable w' ->
  zstd_CompressLevel P (CompressionLevel (config c)) = inl compressed ->
  Encrypt [] derivationKey c w
    = Returned None (set_buffer (Some compressed) c) (after_call P w)
  /\ Decrypt [] derivationKey' (set_buffer (Some compressed) c) w'
    = Returned None (with_plaintext P c) (after_call compressed w').
Proof.
  intros Hbuf Hw Hw' Hz. split.
  - run_alloc w Hw.
    unfold Encrypt_body. unfold_body. simpl.
    rewrite Hbuf; simpl. rewrite Hz; simpl. rewrite Hbuf. reflexivity.
  - run_alloc w' Hw'.
    unfold Decrypt_body. unfold_body. simpl.
    rewrite (zstd_roundtrip _ _ _ Hz); simpl. reflexivity.
Qed.

Lemma copy_tweak (t : bytes) :
  length t = TweakSize -> copy (repeat x00 TweakSize) t = t.
Proof.
  intros H. unfold copy. rewrite repeat_length, H.
  rewrite firstn_all2 by lia.
  rewrite skipn_all2 by (rewrite repeat_length; lia).
  apply app_nil_r.
Qed.

(** [threefishCTR] when Argon2 and the cipher constructor succeed: the
    Argon2 output is cut into cipher key, tweak, MAC key and IV; the data is
    XORed with the counter-mode key stream; the MAC covers header, salt and
    the ciphertext (the output when encrypting, the input when decrypting). *)
Lemma threefishCTR_ok (HL : LibsLaws L) (key salt src raw : bytes) (t3f : Block)
  (enc : bool) :
  argon2_Hash threefishCTR_cfg key salt = inl raw ->
  threefish_NewCipher (blob_tweak raw) (blob_cipher_key raw) = inl t3f ->
  let dst := xorBytes src
               (ctr_keystream t3f (blob_iv raw)
                  (blocks_for BlockSize1024 (length src))) in
  threefishCTR key salt src enc
  = Ok (dst,
        skein_Sum 64 (blob_mac_key raw) PERSONALIZATION
          (bytes_of_string ENCRYPTION_HEADER ++ salt ++ (if enc then dst else src))).
Proof.
  intros Hraw Hcipher dst.
  pose proof (argon2_Hash_length _ _ _ _ Hraw) as Hlen.
  change (HashLength threefishCTR_cfg) with 336 in Hlen.
  pose proof (threefish_BlockSize _ _ _ Hcipher) as Hbs.
  assert (Hk : length (blob_cipher_key raw) = BlockSize1024).
  { unfold blob_cipher_key, BlockSize1024. rewrite length_firstn. lia. }
  assert (Ht : length (blob_tweak raw) = TweakSize).
  { unfold blob_tweak, BlockSize1024, TweakSize.
    rewrite length_firstn, length_skipn. lia. }
  assert (S1 : slice raw BlockSize1024 (BlockSize1024 + TweakSize)
               = Some (blob_tweak raw)).
  { unfold blob_tweak, BlockSize1024, TweakSize. now rewrite slice_Some by lia. }
  assert (S2 : slice raw 0 BlockSize1024 = Some (blob_cipher_key raw)).
  { unfold blob_cipher_key, BlockSize1024. now rewrite slice_Some by lia. }
  assert (S3 : slice_from raw (BlockSize1024 + TweakSize + BlockSize512)
               = Some (blob_iv raw)).
  { unfold blob_iv, BlockSize1024, TweakSize, BlockSize512.
    now rewrite slice_from_Some by lia. }
  assert (S4 : slice raw (BlockSize1024 + TweakSize)
                 (BlockSize1024 + TweakSize + BlockSize512)
               = Some (blob_mac_key raw)).
  { unfold blob_mac_key, BlockSize1024, TweakSize, BlockSize512.
    now rewrite slice_Some by lia. }
  assert (Hiv : length (blob_iv raw) = BlockSize t3f).
  { rewrite Hbs, Hk. unfold blob_iv, BlockSize1024, TweakSize, BlockSize512.
    rewrite length_skipn. lia. }
  unfold threefishCTR. rewrite Hraw. cbn [of_sum rbind].
  rewrite S1. cbn [of_option rbind]. rewrite (copy_tweak _ Ht).
  rewrite S2. cbn [of_option rbind]. rewrite Hcipher. cbn [of_sum rbind].
  rewrite S3. cbn [of_option rbind].
  unfold CTR_XORKeyStream. rewrite (proj2 (Nat.eqb_eq _ _) Hiv).
  cbn [of_option rbind]. rewrite S4. cbn [of_option rbind].
  rewrite Hbs, Hk. reflexivity.
Qed.

(** Decrypting what [threefishCTR] encrypted, under the same key and salt,
    gives the input back together with the same MAC. *)
Lemma threefishCTR_roundtrip (key salt src dst mac : bytes) :
  threefishCTR key salt src true = Ok (dst, mac) ->
  threefishCTR key salt dst false = Ok (src, mac).
Proof.
  unfold threefishCTR, rbind, of_sum, of_option.
  destruct (argon2_Hash threefishCTR_cfg key salt) as [raw | e]; [| discriminate].
  destruct (slice raw BlockSize1024 (BlockSize1024 + TweakSize)) as [tweak |];
    [| discriminate].
  destruct (slice raw 0 BlockSize1024) as [k |]; [| discriminate].
  destruct (threefish_NewCipher (copy (repeat x00 TweakSize) tweak) k) as [t3f | e];
    [| discriminate].
  destruct (slice_from raw (BlockSize1024 + TweakSize + BlockSize512)) as [iv |];
    [| discriminate].
  destruct (CTR_XORKeyStream t3f iv src) as [d |] eqn:Hx; [| discriminate].
  destruct (slice raw (BlockSize1024 + TweakSize)
              (BlockSize1024 + TweakSize + BlockSize512)) as [mk |]; [| discriminate].
  intros [= <- <-].
  rewrite (CTR_XORKeyStream_involutive _ _ _ _ Hx). reflexivity.
Qed.

Lemma header_bytes :
  bytes_of_string ENCRYPTION_HEADER = bytes_of_string "duplicacy" ++ [x00].
Proof. reflexivity. Qed.

(** C2. With a non-empty [encryptionKey] (and the libraries succeeding),
    [Encrypt] leaves in the chunk's buffer exactly: the 10-byte header
    "duplicacy" plus version byte 0, the 32-byte salt read from the random
    source, the 64-byte Skein MAC keyed with the MAC-key part of the Argon2
    output and computed over header, salt and ciphertext, and then the
    ciphertext, which is the counter-mode encryption, under the Threefish
    cipher built from the Argon2 output, of the zstd-compressed plaintext. *)
Theorem Encrypt_envelope_layout (HL : LibsLaws L)
  (c : Chunk) (w : World) (encryptionKey : bytes) (derivationKey : string)
  (P salt compressed raw : bytes) (r' : RandState) (t3f : Block) :
  0 < length encryptionKey ->
  buffer c = Some P ->
  allocatable w ->
  rand_Read 32 (rand_state w) = (inl salt, r') ->
  zstd_CompressLevel P (CompressionLevel (config c)) = inl compressed ->
  argon2_Hash threefishCTR_cfg (derived_key encryptionKey derivationKey) salt
    = inl raw ->
  threefish_NewCipher (blob_tweak raw) (blob_cipher_key raw) = inl t3f ->
  let header := bytes_of_string "duplicacy" ++ [x00] in
  let ciphertext :=
    xorBytes compressed
      (ctr_keystream t3f (blob_iv raw) (blocks_for BlockSize1024 (length compressed))) in
  let mac :=
    skein_Sum 64 (blob_mac_key raw) PERSONALIZATION (header ++ salt ++ ciphertext) in
  Encrypt encryptionKey derivationKey c w
    = Returned None (set_buffer (Some (header ++ salt ++ mac ++ ciphertext)) c)
        (after_call P (set_rand r' w))
  /\ length header = 10 /\ length salt = 32 /\ length mac = 64
  /\ BlockSize t3f = BlockSize1024
  /\ length (blob_cipher_key raw) = 128 /\ length (blob_tweak raw) = 16
  /\ length (blob_mac_key raw) = 64 /\ length (blob_iv raw) = 128.
Proof.
  intros Hkey Hbuf Hw Hrand Hz Hraw Hcipher header ciphertext mac.
  pose proof (argon2_Hash_length _ _ _ _ Hraw) as Hlen.
  change (HashLength threefishCTR_cfg) with 336 in Hlen.
  assert (Hk : length (blob_cipher_key raw) = 128).
  { unfold blob_cipher_key, BlockSize1024. rewrite length_firstn. lia. }
  repeat apply conj.
  - pose proof (threefishCTR_ok HL _ _ compressed _ _ true Hraw Hcipher) as Hctr.
    cbv zeta in Hctr. rewrite header_bytes in Hctr.
    fold header ciphertext mac in Hctr.
    assert (Hrand1 : forall p, rand_Read 32 (rand_state (set_pool p w)) = (inl salt, r'))
      by (intros p; exact Hrand).
    unfold allocatable in Hw.
    unfold after_call, Encrypt, with_encryptedBuffer, AllocateChunkBuffer.
    unfold derived_key in Hctr.
    destruct (chunkBufferPool w) as [| [scratch |] rest] eqn:Hpool;
      [| | simpl in Hw; congruence];
      unfold Encrypt_body; unfold_body;
      rewrite (proj2 (Nat.ltb_lt _ _) Hkey); cbn [f_world f_chunk f_encryptedBuffer];
      rewrite ?Hrand1, ?Hrand; cbn [f_world f_chunk f_encryptedBuffer];
      rewrite Hbuf; cbn [f_world f_chunk f_encryptedBuffer];
      rewrite Hz;
      replace (length encryptionKey =? 0) with false
        by (symmetry; apply Nat.eqb_neq; lia);
      rewrite Hctr; cbn [f_world f_chunk f_encryptedBuffer];
      rewrite Hbuf; rewrite header_bytes; fold header;
      cbn [app]; rewrite <- ?app_assoc; unfold set_rand, set_pool; cbn;
      rewrite ?Hpool; reflexivity.
  - reflexivity.
  - exact (rand_Read_length _ _ _ _ Hrand).
  - apply skein_Sum_length.
  - rewrite (threefish_BlockSize _ _ _ Hcipher). exact Hk.
  - exact Hk.
  - unfold blob_tweak, BlockSize1024, TweakSize.
    rewrite length_firstn, length_skipn. lia.
  - unfold blob_mac_key, BlockSize1024, TweakSize, BlockSize512.
    rewrite length_firstn, length_skipn. lia.
  - unfold blob_iv, BlockSize1024, TweakSize, BlockSize512.
    rewrite length_skipn. lia.
Qed.

Lemma threefishCTR_mac_length (HL : LibsLaws L) (key salt src dst mac : bytes)
  (enc : bool) :
  threefishCTR key salt src enc = Ok (dst, mac) -> length mac = 64.
Proof.
  unfold threefishCTR, rbind, of_sum, of_option.
  repeat match goal with
         | |- context [match ?x with _ => _ end] => destruct x; try discriminate
         end.
  all: intros [= _ <-]; apply skein_Sum_length.
Qed.

(** [Decrypt] on a well-formed envelope whose MAC verifies: the plaintext is
    installed and the envelope's buffer goes back to the pool. *)
Lemma Decrypt_envelope_ok (c : Chunk) (w : World) (encryptionKey : bytes)
  (derivationKey : string) (salt mac ciphertext compressed P : bytes) :
  0 < length encryptionKey ->
  allocatable w ->
  length salt = 32 ->
  length mac = 64 ->
  threefishCTR (derived_key encryptionKey derivationKey) salt ciphertext false
    = Ok (compressed, mac) ->
  zstd_Decompress compressed = inl P ->
  let envelope := bytes_of_string ENCRYPTION_HEADER ++ salt ++ mac ++ ciphertext in
  buffer c = Some envelope ->
  Decrypt encryptionKey derivationKey c w
    = Returned None (with_plaintext P c) (after_call envelope w).
Proof.
  intros Hkey Hw Hsalt Hmac Hctr Hz envelope Hbuf.
  assert (Hlen : length envelope = 106 + length ciphertext).
  { unfold envelope. rewrite !length_app, Hsalt, Hmac. reflexivity. }
  assert (E1 : slice envelope 0 9 = Some (bytes_of_string "duplicacy")).
  { unfold envelope. rewrite header_bytes, <- !app_assoc.
    now apply slice_app_prefix. }
  assert (E2 : index envelope 9 = Some x00).
  { unfold envelope. rewrite header_bytes, <- !app_assoc.
    now apply index_app. }
  assert (E3 : slice envelope 10 (10 + 32) = Some salt).
  { unfold envelope. apply slice_app_mid; [reflexivity | now rewrite Hsalt]. }
  assert (E4 : slice envelope (10 + 32) (10 + 32 + 64) = Some mac).
  { unfold envelope. rewrite app_assoc. apply slice_app_mid.
    - rewrite length_app, Hsalt. reflexivity.
    - now rewrite Hmac. }
  assert (E5 : slice_from envelope (10 + 32 + 64) = Some ciphertext).
  { unfold envelope. rewrite !app_assoc. apply slice_from_app.
    rewrite !length_app, Hsalt, Hmac. reflexivity. }
  run_alloc w Hw.
  unfold Decrypt_body. unfold_body. unfold derived_key in Hctr.
  rewrite (proj2 (Nat.ltb_lt _ _) Hkey).
  cbn [f_world f_chunk f_encryptedBuffer set_buffer buffer].
  rewrite Hbuf.
  change (String.length ENCRYPTION_HEADER) with 10. unfold BlockSize512.
  replace (length envelope <? 10 + 32 + 64) with false
    by (symmetry; apply Nat.ltb_ge; rewrite Hlen; lia).
  change (10 - 1) with 9. rewrite E1.
  change (negb (String.eqb (string_of_list_byte (bytes_of_string "duplicacy"))
                  (substring 0 9 ENCRYPTION_HEADER))) with false.
  cbv iota. rewrite E2.
  change (negb (byte_val x00 =? 0)) with false. cbv iota.
  rewrite E3, E4, E5, Hctr. rewrite bytes_Compare_refl.
  change (negb (0 =? 0)%Z) with false. cbv iota.
  cbn [f_world f_chunk f_encryptedBuffer set_buffer buffer].
  rewrite Hz. reflexivity.
Qed.

(** What a successful [Encrypt] must have done. *)
Lemma Encrypt_success_inv (HL : LibsLaws L) (c c1 : Chunk) (w w1 : World)
  (encryptionKey : bytes) (derivationKey : string) (P : bytes) :
  buffer c = Some P ->
  Encrypt encryptionKey derivationKey c w = Returned None c1 w1 ->
  exists compressed,
    zstd_CompressLevel P (CompressionLevel (config c)) = inl compressed /\
    ((length encryptionKey = 0 /\ c1 = set_buffer (Some compressed) c) \/
     (0 < length encryptionKey /\
      exists salt ciphertext mac,
        length salt = 32 /\
        threefishCTR (derived_key encryptionKey derivationKey) salt compressed true
          = Ok (ciphertext, mac) /\
        c1 = set_buffer
               (Some (bytes_of_string ENCRYPTION_HEADER ++ salt ++ mac ++ ciphertext))
               c)).
Proof.
  intros Hbuf. unfold Encrypt, with_encryptedBuffer.
  destruct (AllocateChunkBuffer w) as [[scratch |] w0]; [| discriminate].
  unfold Encrypt_body. unfold_body. unfold derived_key.
  destruct (Nat.ltb_spec 0 (length encryptionKey)) as [Hkey | Hkey].
  - cbn [f_world f_chunk f_encryptedBuffer].
    destruct (rand_Read 32 (rand_state w0)) as [[salt | e] r'] eqn:Hrand;
      [| discriminate].
    cbn [f_world f_chunk f_encryptedBuffer]. rewrite Hbuf.
    cbn [f_world f_chunk f_encryptedBuffer].
    destruct (zstd_CompressLevel P (CompressionLevel (config c)))
      as [compressed | e]; [| discriminate].
    replace (length encryptionKey =? 0) with false
      by (symmetry; apply Nat.eqb_neq; lia).
    destruct (threefishCTR _ salt compressed true) as [[ciphertext mac] | e |] eqn:Hctr;
      [| discriminate | discriminate].
    cbn [f_world f_chunk f_encryptedBuffer]. intros [= <- _].
    exists compressed. split; [reflexivity | right]. split; [exact Hkey |].
    exists salt, ciphertext, mac. repeat apply conj.
    + exact (rand_Read_length _ _ _ _ Hrand).
    + exact Hctr.
    + simpl. now rewrite <- !app_assoc.
  - assert (Hk0 : length encryptionKey = 0) by lia.
    cbn [f_world f_chunk f_encryptedBuffer]. rewrite Hbuf.
    cbn [f_world f_chunk f_encryptedBuffer].
    destruct (zstd_CompressLevel P (CompressionLevel (config c)))
      as [compressed | e]; [| discriminate].
    rewrite Hk0. cbn [Nat.eqb f_world f_chunk f_encryptedBuffer].
    intros [= <- _].
    exists compressed. split; [reflexivity | left]. split; reflexivity.
Qed.

Lemma Decrypt_unencrypted_ok (c : Chunk) (w : World) (encryptionKey : bytes)
  (derivationKey : string) (compressed P : bytes) :
  length encryptionKey = 0 ->
  allocatable w ->
  buffer c = Some compressed ->
  zstd_Decompress compressed = inl P ->
  Decrypt encryptionKey derivationKey c w
    = Returned None (with_plaintext P c) (after_call compressed w).
Proof.
  intros Hkey Hw Hbuf Hz. run_alloc w Hw.
  unfold Decrypt_body. unfold_body. rewrite Hkey.
  cbn [Nat.ltb Nat.leb f_world f_chunk f_encryptedBuffer set_buffer buffer].
  rewrite Hbuf, Hz. reflexivity.
Qed.

Lemma Hasher_Write_app (h : Hasher) (a b : bytes) :
  Hasher_Write (Hasher_Write h a) b = Hasher_Write h (a ++ b).
Proof. unfold Hasher_Write. simpl. now rewrite app_assoc. Qed.

(** Successive writes accumulate in the buffer and in the hasher. *)
Lemma write_all_spec (ps : list bytes) (c : Chunk) (b : Buffer) (h : Hasher) :
  buffer c = Some b ->
  hasher c = Some h ->
  buffer (write_all ps c) = Some (b ++ concat ps)
  /\ hasher (write_all ps c) = Some (Hasher_Write h (concat ps))
  /\ hash (write_all ps c) = hash c
  /\ config (write_all ps c) = config c.
Proof.
  revert c b h. induction ps as [| p ps IH]; intros c b h Hb Hh.
  - simpl. rewrite app_nil_r. repeat apply conj; try easy.
    rewrite Hh. destruct h. unfold Hasher_Write. simpl. now rewrite app_nil_r.
  - change (write_all (p :: ps) c) with (write_all ps (snd (Write p c))).
    assert (Hw : snd (Write p c)
                 = set_hasher (Some (Hasher_Write h p))
                     (set_buffer (Some (b ++ p)) c)).
    { unfold Write. rewrite Hb. simpl. now rewrite Hh. }
    destruct (IH (snd (Write p c)) (b ++ p) (Hasher_Write h p))
      as (IH1 & IH2 & IH3 & IH4); try (rewrite Hw; reflexivity).
    rewrite IH1, IH2, IH3, IH4, Hw. simpl concat.
    rewrite Hasher_Write_app, <- app_assoc. repeat apply conj; reflexivity.
Qed.

(** C1. Round trip.  Take a chunk with a buffer, reset it for hashing, write
    the plaintext in any number of pieces and read its hash; whenever
    [Encrypt] then succeeds, [Decrypt] with the same keys (run in any later
    package state from which a scratch buffer can be allocated) succeeds,
    restores the buffer to exactly the plaintext, and [GetHash] returns the
    hash read before the encryption.  This holds for every encryption key,
    derivation key and compression level (a field of the chunk's
    configuration). *)
Theorem Encrypt_Decrypt_roundtrip (HL : LibsLaws L)
  (c c0 c1 : Chunk) (b : Buffer) (ps : list bytes)
  (encryptionKey : bytes) (derivationKey : string) (w w1 w' : World)
  (h : string) :
  buffer c = Some b ->
  GetHash (write_all ps (Reset true c)) = Ok (h, c0) ->
  Encrypt encryptionKey derivationKey c0 w = Returned None c1 w1 ->
  allocatable w' ->
  exists c2 w2 c3,
    Decrypt encryptionKey derivationKey c1 w' = Returned None c2 w2
    /\ buffer c2 = Some (concat ps)
    /\ GetHash c2 = Ok (h, c3).
Proof.
  intros Hb Hhash Henc Hw'.
  destruct (write_all_spec ps (Reset true c) []
              (NewKeyedHasher (config c) (HashKey (config c))))
    as (Wb & Wh & Whash & Wcfg).
  { unfold Reset. rewrite Hb. reflexivity. }
  { unfold Reset. rewrite Hb. reflexivity. }
  simpl app in Wb.
  assert (Hcfg : config (Reset true c) = config c)
    by (unfold Reset; rewrite Hb; reflexivity).
  assert (Hh0 : hash (Reset true c) = [])
    by (unfold Reset; rewrite Hb; reflexivity).
  rewrite Hh0 in Whash. rewrite Hcfg in Wcfg.
  unfold GetHash in Hhash. rewrite Whash, Wh in Hhash. simpl in Hhash.
  injection Hhash as <- <-.
  set (P := concat ps) in *.
  set (c0 := set_hash _ _) in *.
  assert (Hb0 : buffer c0 = Some P) by exact Wb.
  assert (Hcfg0 : config c0 = config c) by exact Wcfg.
  destruct (Encrypt_success_inv HL _ _ _ _ _ _ _ Hb0 Henc)
    as (compressed & Hz & [[Hk ->] | [Hk (salt & ct & mac & Hsalt & Hctr & ->)]]).
  - exists (with_plaintext P (set_buffer (Some compressed) c0)).
    eexists. eexists. repeat apply conj.
    + apply Decrypt_unencrypted_ok; try assumption; try reflexivity.
      exact (zstd_roundtrip _ _ _ Hz).
    + reflexivity.
    + unfold GetHash, with_plaintext. simpl. rewrite Wcfg. reflexivity.
  - exists (with_plaintext P
              (set_buffer
                 (Some (bytes_of_string ENCRYPTION_HEADER ++ salt ++ mac ++ ct)) c0)).
    eexists. eexists. repeat apply conj.
    + apply (Decrypt_envelope_ok _ _ _ _ salt mac ct compressed P Hk Hw' Hsalt).
      * exact (threefishCTR_mac_length HL _ _ _ _ _ _ Hctr).
      * apply threefishCTR_roundtrip. exact Hctr.
      * exact (zstd_roundtrip _ _ _ Hz).
      * reflexivity.
    + reflexivity.
    + unfold GetHash, with_plaintext. simpl. rewrite Wcfg. reflexivity.
Qed.

(** C3, as the code has it.  For a chunk whose binary hash has been
    computed, and whose cached identifier is either absent or the one
    derived from that hash, [GetID] returns the zbase32 encoding of PBKDF2-HMAC-SHA512 with password
    [config.IDKey], salt the binary hash, 13 iterations and 64 bytes of
    output; the hash is left as it was, and a repeated call returns the same
    string. *)
Theorem GetID_derives_and_caches (c : Chunk) :
  0 < length (hash c) ->
  id c = ""%string \/ id c = expected_id (config c) (hash c) ->
  exists c',
    GetID c = Ok (expected_id (config c) (hash c), c')
    /\ hash c' = hash c
    /\ config c' = config c
    /\ id c' = expected_id (config c) (hash c)
    /\ GetID c' = Ok (expected_id (config c) (hash c), c').
Proof.
  intros Hhash Hid.
  assert (Hh : (length (hash c) =? 0) = false) by (apply Nat.eqb_neq; lia).
  assert (Hfresh : forall c0, hash c0 = hash c -> config c0 = config c ->
            String.length (id c0) = 0 ->
            GetID c0 = Ok (expected_id (config c) (hash c),
                           set_id (expected_id (config c) (hash c)) c0)).
  { intros c0 E1 E2 E3. unfold GetID. rewrite E3, E1, Hh. simpl.
    unfold expected_id. now rewrite E1, E2. }
  assert (Hcached : forall c0, id c0 = expected_id (config c) (hash c) ->
            String.length (id c0) <> 0 ->
            GetID c0 = Ok (expected_id (config c) (hash c), c0)).
  { intros c0 E1 E2. unfold GetID.
    destruct (Nat.eqb_spec (String.length (id c0)) 0); [contradiction |].
    now rewrite E1. }
  set (i := expected_id (config c) (hash c)) in *.
  destruct (Nat.eq_dec (String.length (id c)) 0) as [E | E].
  - exists (set_id i c). repeat apply conj; try reflexivity.
    + now apply Hfresh.
    + destruct (Nat.eq_dec (String.length i) 0) as [Ei | Ei].
      * rewrite (Hfresh (set_id i c)); now try reflexivity.
      * now apply Hcached.
  - destruct Hid as [Hid | Hid]; [rewrite Hid in E; now elim E |].
    exists c. repeat apply conj; try reflexivity; try assumption;
      now apply Hcached.
Qed.

(** What an erroring [Decrypt] with a key leaves behind: the chunk holds the
    emptied scratch buffer, and the variable read by the deferred release
    holds the envelope. *)
Lemma Decrypt_body_error (c : Chunk) (w1 : World) (encryptionKey : bytes)
  (derivationKey : string) (envelope : bytes) (e : error) (f : Frame) :
  0 < length encryptionKey ->
  buffer c = Some envelope ->
  Decrypt_body encryptionKey derivationKey
    {| f_chunk := c; f_encryptedBuffer := Some []; f_world := w1 |}
    = Returns (Some e) f ->
  f = {| f_chunk := set_buffer (Some []) c;
         f_encryptedBuffer := Some envelope;
         f_world := w1 |}.
Proof.
  intros Hkey Hbuf. unfold Decrypt_body. unfold_body.
  rewrite (proj2 (Nat.ltb_lt _ _) Hkey).
  cbn [f_world f_chunk f_encryptedBuffer set_buffer buffer]. rewrite Hbuf.
  destruct (length envelope <? _); [now intros [= _ <-] |].
  destruct (slice envelope 0 _) as [magic |]; [| discriminate].
  destruct (negb (String.eqb _ _)); [now intros [= _ <-] |].
  destruct (index envelope _) as [version |]; [| discriminate].
  destruct (negb (byte_val version =? 0)); [now intros [= _ <-] |].
  destruct (slice envelope _ _) as [salt |]; [| discriminate].
  destruct (slice envelope _ _) as [chunkSkeinMac |]; [| discriminate].
  destruct (slice_from envelope _) as [ciphertext |]; [| discriminate].
  destruct (threefishCTR _ salt ciphertext false) as [[decrypted skeinMac] | e' |];
    [| now intros [= _ <-] | discriminate].
  destruct (negb (bytes_Compare chunkSkeinMac skeinMac =? 0)%Z);
    [now intros [= _ <-] |].
  cbn [f_world f_chunk f_encryptedBuffer set_buffer buffer].
  destruct (zstd_Decompress decrypted) as [decompressed | e'];
    [discriminate | now intros [= _ <-]].
Qed.

(** C9. When [Decrypt] is called with a non-empty key on a chunk holding an
    envelope and returns an error, for whatever reason, the chunk no longer
    holds the envelope: its buffer is the emptied scratch buffer, so
    [GetLength] is 0, and the buffer with the envelope bytes is the newest
    entry of the pool. *)
Theorem Decrypt_error_releases_envelope (HL : LibsLaws L)
  (c c' : Chunk) (w w' : World) (encryptionKey : bytes) (derivationKey : string)
  (envelope : bytes) (e : error) :
  0 < length encryptionKey ->
  buffer c = Some envelope ->
  pool_within_cap w ->
  Decrypt encryptionKey derivationKey c w = Returned (Some e) c' w' ->
  GetLength c' = 0
  /\ buffer c' = Some []
  /\ chunkBufferPool w' = tl (chunkBufferPool w) ++ [Some envelope].
Proof.
  intros Hkey Hbuf Hcap. unfold Decrypt, with_encryptedBuffer.
  assert (Hroom : length (chunkBufferPool (snd (AllocateChunkBuffer w)))
                  < chunkBufferPool_cap
                  /\ chunkBufferPool (snd (AllocateChunkBuffer w))
                     = tl (chunkBufferPool w)).
  { pose proof runtime_NumCPU_pos as Hcpu.
    unfold pool_within_cap, chunkBufferPool_cap in *. unfold AllocateChunkBuffer.
    destruct (chunkBufferPool w) as [| x rest] eqn:Hp; simpl in *.
    - rewrite Hp. simpl. split; [lia | reflexivity].
    - split; [lia | reflexivity]. }
  destruct (AllocateChunkBuffer w) as [[scratch |] w1]; [| discriminate].
  simpl in Hroom. destruct Hroom as [Hroom Htl].
  unfold Buffer_Reset.
  destruct (Decrypt_body encryptionKey derivationKey _) as [[] | err f |] eqn:Hbody;
    [| discriminate].
  intros [= -> <- <-].
  apply (Decrypt_body_error _ _ _ _ _ _ _ Hkey Hbuf) in Hbody. subst f.
  cbn [f_world f_chunk f_encryptedBuffer].
  repeat apply conj; try reflexivity.
  unfold ReleaseChunkBuffer. rewrite (proj2 (Nat.ltb_lt _ _) Hroom).
  simpl. now rewrite Htl.
Qed.

(** Facts about the tests on the header. *)
Lemma slice_prefix_firstn (s : bytes) (n : nat) :
  n <= length s -> slice s 0 n = Some (firstn n s).
Proof.
  intros H. rewrite slice_Some by lia. now rewrite Nat.sub_0_r.
Qed.

Lemma magic_eqb (magic : bytes) :
  String.eqb (string_of_list_byte magic) (substring 0 9 ENCRYPTION_HEADER)
  = true <-> magic = bytes_of_string "duplicacy".
Proof.
  change (substring 0 9 ENCRYPTION_HEADER)
    with (string_of_list_byte (bytes_of_string "duplicacy")).
  rewrite String.eqb_eq. split; [apply string_of_list_byte_inj | now intros ->].
Qed.

Lemma byte_val_0 (v : byte) : byte_val v = 0 <-> v = x00.
Proof.
  unfold byte_val. split; [| now intros ->].
  intros H. apply byte_to_N_inj. simpl. lia.
Qed.

(** C5. [Decrypt] with a non-empty key rejects, in this order: an envelope
    shorter than 10 + 32 + 64 bytes ("No enough encrypted data (n bytes)
    provided"); otherwise one whose first 9 bytes are not "duplicacy" ("The
    storage doesn't seem to be encrypted"); otherwise one whose byte 9 is
    not 0 ("Unsupported encryption version v").  Each rejection returns
    before anything is decrypted: the chunk keeps its hasher and hash and
    holds the emptied scratch buffer. *)
Theorem Decrypt_header_checks (c : Chunk) (w : World) (encryptionKey : bytes)
  (derivationKey : string) (envelope : bytes) :
  0 < length encryptionKey ->
  buffer c = Some envelope ->
  allocatable w ->
  let rejected (msg : string) :=
    Decrypt encryptionKey derivationKey c w
    = Returned (Some msg) (set_buffer (Some []) c) (after_call envelope w) in
  (length envelope < 10 + 32 + 64 ->
   rejected ("No enough encrypted data (" ++ fmt_d (length envelope)
               ++ " bytes) provided")%string)
  /\ (10 + 32 + 64 <= length envelope ->
      firstn 9 envelope <> bytes_of_string "duplicacy" ->
      rejected "The storage doesn't seem to be encrypted"%string)
  /\ (forall v : byte,
        10 + 32 + 64 <= length envelope ->
        firstn 9 envelope = bytes_of_string "duplicacy" ->
        nth_error envelope 9 = Some v ->
        v <> x00 ->
        rejected ("Unsupported encryption version " ++ fmt_d (byte_val v))%string).
Proof.
  intros Hkey Hbuf Hw rejected. unfold rejected. clear rejected.
  run_alloc w Hw.
  unfold Decrypt_body. unfold_body.
  rewrite (proj2 (Nat.ltb_lt _ _) Hkey).
  cbn [f_world f_chunk f_encryptedBuffer set_buffer buffer]. rewrite Hbuf.
  change (String.length ENCRYPTION_HEADER) with 10. unfold BlockSize512.
  change (10 - 1) with 9.
  repeat apply conj.
  - intros Hshort. rewrite (proj2 (Nat.ltb_lt _ _) Hshort). reflexivity.
  - intros Hlen Hmagic. rewrite (proj2 (Nat.ltb_ge _ _) Hlen).
    rewrite slice_prefix_firstn by lia.
    destruct (String.eqb _ _) eqn:E; [| reflexivity].
    apply magic_eqb in E. contradiction.
  - intros v Hlen Hmagic Hv Hv0. rewrite (proj2 (Nat.ltb_ge _ _) Hlen).
    rewrite slice_prefix_firstn by lia.
    rewrite (proj2 (magic_eqb _) Hmagic).
    unfold index. rewrite Hv.
    destruct (Nat.eqb_spec (byte_val v) 0) as [E | E];
      [apply byte_val_0 in E; contradiction | reflexivity].
Qed.

(** What [Decrypt] computes when it checks the MAC (the part of C6 that is
    about values; how long the comparison takes is not a property of the
    functions here).  [Decrypt] with a key on an envelope of at least
    10 + 32 + 64 bytes that starts with the header, when Argon2 and the
    cipher constructor succeed.  The MAC is recomputed over
    header, salt (bytes 10..42) and ciphertext (bytes 106..) under the
    MAC-key part of the Argon2 output and compared, by [bytes.Compare], with
    bytes 42..106.  When they differ [Decrypt] returns "Unable to verify
    MAC" and nothing is decompressed into the chunk, which keeps its hasher
    and hash and holds the emptied scratch buffer; when they agree the
    decrypted bytes go to zstd. *)
Theorem Decrypt_verifies_mac (HL : LibsLaws L)
  (c : Chunk) (w : World) (encryptionKey : bytes) (derivationKey : string)
  (envelope raw : bytes) (t3f : Block) :
  0 < length encryptionKey ->
  buffer c = Some envelope ->
  allocatable w ->
  10 + 32 + 64 <= length envelope ->
  firstn 10 envelope = bytes_of_string "duplicacy" ++ [x00] ->
  let salt := firstn 32 (skipn 10 envelope) in
  let storedMac := firstn 64 (skipn 42 envelope) in
  let ciphertext := skipn 106 envelope in
  argon2_Hash threefishCTR_cfg (derived_key encryptionKey derivationKey) salt
    = inl raw ->
  threefish_NewCipher (blob_tweak raw) (blob_cipher_key raw) = inl t3f ->
  let recomputed :=
    skein_Sum 64 (blob_mac_key raw) PERSONALIZATION
      ((bytes_of_string "duplicacy" ++ [x00]) ++ salt ++ ciphertext) in
  let decrypted :=
    xorBytes ciphertext
      (ctr_keystream t3f (blob_iv raw) (blocks_for BlockSize1024 (length ciphertext))) in
  (storedMac <> recomputed ->
   Decrypt encryptionKey derivationKey c w
   = Returned (Some "Unable to verify MAC"%string) (set_buffer (Some []) c)
       (after_call envelope w))
  /\ (storedMac = recomputed ->
      Decrypt encryptionKey derivationKey c w
      = match zstd_Decompress decrypted with
        | inl P => Returned None (with_plaintext P c) (after_call envelope w)
        | inr e => Returned (Some e) (set_buffer (Some []) c) (after_call envelope w)
        end).
Proof.
  intros Hkey Hbuf Hw Hlen Hhdr salt storedMac ciphertext Hraw Hcipher
    recomputed decrypted.
  pose proof (threefishCTR_ok HL _ _ ciphertext _ _ false Hraw Hcipher) as Hctr.
  cbv zeta in Hctr. rewrite header_bytes in Hctr.
  fold decrypted recomputed in Hctr. unfold derived_key in Hctr.
  assert (Hmagic : firstn 9 envelope = bytes_of_string "duplicacy").
  { change 9 with (Nat.min 9 10). rewrite <- firstn_firstn, Hhdr. reflexivity. }
  assert (Hver : nth_error envelope 9 = Some x00).
  { rewrite <- (firstn_skipn 10 envelope), Hhdr.
    rewrite nth_error_app1 by (simpl; lia). reflexivity. }
  assert (E3 : slice envelope 10 (10 + 32) = Some salt).
  { now rewrite slice_Some by lia. }
  assert (E4 : slice envelope (10 + 32) (10 + 32 + 64) = Some storedMac).
  { now rewrite slice_Some by lia. }
  assert (E5 : slice_from envelope (10 + 32 + 64) = Some ciphertext).
  { now rewrite slice_from_Some by lia. }
  run_alloc w Hw.
  unfold Decrypt_body. unfold_body.
  rewrite (proj2 (Nat.ltb_lt _ _) Hkey).
  cbn [f_world f_chunk f_encryptedBuffer set_buffer buffer]. rewrite Hbuf.
  change (String.length ENCRYPTION_HEADER) with 10. unfold BlockSize512.
  change (10 - 1) with 9.
  rewrite (proj2 (Nat.ltb_ge _ _) Hlen).
  rewrite slice_prefix_firstn by lia.
  rewrite (proj2 (magic_eqb _) Hmagic).
  unfold index. rewrite Hver.
  change (negb (byte_val x00 =? 0)) with false. cbv iota.
  cbn [negb].
  rewrite E3, E4, E5, Hctr.
  split; intros Hmac.
  - destruct (Z.eqb_spec (bytes_Compare storedMac recomputed) 0) as [E | E];
      [apply bytes_Compare_eq in E; contradiction | reflexivity].
  - rewrite Hmac, bytes_Compare_refl.
    change (negb (0 =? 0)%Z) with false. cbv iota.
    cbn [f_world f_chunk f_encryptedBuffer set_buffer buffer].
    destruct (zstd_Decompress decrypted); reflexivity.
Qed.

(** [Decrypt] never reads [DecryptWithHMACSHA256]: changing the flag changes
    nothing but the flag. *)
Lemma Decrypt_body_flag (b : bool) (encryptionKey : bytes) (derivationKey : string)
  (f : Frame) :
  Decrypt_body encryptionKey derivationKey (frame_in (set_flag b) f)
  = step_in (set_flag b) (Decrypt_body encryptionKey derivationKey f).
Proof.
  destruct f as [c eb w]. unfold Decrypt_body, frame_in. unfold_body.
  cbn [f_world f_chunk f_encryptedBuffer set_buffer buffer].
  destruct (0 <? length encryptionKey);
    cbn [f_world f_chunk f_encryptedBuffer set_buffer buffer].
  - destruct (buffer c) as [envelope |]; [| reflexivity]. cbv beta iota.
    destruct (length envelope <? _); [reflexivity |].
    destruct (slice envelope 0 _) as [magic |]; [| reflexivity].
    destruct (negb (String.eqb _ _)); [reflexivity |].
    destruct (index envelope _) as [version |]; [| reflexivity].
    destruct (negb (byte_val version =? 0)); [reflexivity |].
    destruct (slice envelope _ _) as [salt |]; [| reflexivity].
    destruct (slice envelope _ _) as [chunkSkeinMac |]; [| reflexivity].
    destruct (slice_from envelope _) as [ciphertext |]; [| reflexivity].
    destruct (threefishCTR _ salt ciphertext false) as [[decrypted skeinMac] | e' |];
      [| reflexivity | reflexivity].
    destruct (negb (bytes_Compare chunkSkeinMac skeinMac =? 0)%Z); [reflexivity |].
    destruct eb as [scratch |]; [| reflexivity].
    cbn [f_world f_chunk f_encryptedBuffer set_buffer buffer].
    destruct (zstd_Decompress decrypted); reflexivity.
  - destruct eb as [scratch |]; [| reflexivity].
    cbn [f_world f_chunk f_encryptedBuffer set_buffer buffer].
    destruct (buffer c) as [envelope |]; [| reflexivity]. cbv beta iota.
    destruct (zstd_Decompress envelope); reflexivity.
Qed.

Lemma Decrypt_flag (b : bool) (encryptionKey : bytes) (derivationKey : string)
  (c : Chunk) (w : World) :
  Decrypt encryptionKey derivationKey c (set_flag b w)
  = in_world (set_flag b) (Decrypt encryptionKey derivationKey c w).
Proof.
  unfold Decrypt, with_encryptedBuffer, AllocateChunkBuffer.
  cbn [chunkBufferPool set_flag].
  assert (Hbody : forall scratch w0,
    match Decrypt_body encryptionKey derivationKey
            {| f_chunk := c; f_encryptedBuffer := Some (Buffer_Reset scratch);
               f_world := set_flag b w0 |} with
    | Next a _ => match a with end
    | Returns err f =>
        Returned err (f_chunk f) (ReleaseChunkBuffer (f_encryptedBuffer f) (f_world f))
    | Panics => Panicked
    end
    = in_world (set_flag b)
        match Decrypt_body encryptionKey derivationKey
                {| f_chunk := c; f_encryptedBuffer := Some (Buffer_Reset scratch);
                   f_world := w0 |} with
        | Next a _ => match a with end
        | Returns err f =>
            Returned err (f_chunk f)
              (ReleaseChunkBuffer (f_encryptedBuffer f) (f_world f))
        | Panics => Panicked
        end).
  { intros scratch w0.
    change {| f_chunk := c; f_encryptedBuffer := Some (Buffer_Reset scratch);
              f_world := set_flag b w0 |}
      with (frame_in (set_flag b)
              {| f_chunk := c; f_encryptedBuffer := Some (Buffer_Reset scratch);
                 f_world := w0 |}).
    rewrite Decrypt_body_flag.
    destruct (Decrypt_body encryptionKey derivationKey _) as [[] | err f |];
      [| reflexivity].
    cbn [step_in in_world frame_in f_world f_chunk f_encryptedBuffer].
    unfold ReleaseChunkBuffer. cbn [chunkBufferPool set_flag].
    destruct (length (chunkBufferPool (f_world f)) <? chunkBufferPool_cap);
      reflexivity. }
  destruct (chunkBufferPool w) as [| [scratch |] rest].
  - apply Hbody.
  - apply (Hbody scratch (set_pool rest w)).
  - reflexivity.
Qed.

(** C4, as the code has it.  With [DUPLICACY_DECRYPT_WITH_HMACSHA256=1] in
    the environment [init] sets the flag, and [Decrypt] then does exactly what
    it does without it: the effective key is the same PBKDF2-SHA512
    derivation, and no HMAC-SHA-256 is computed. *)
Theorem Decrypt_ignores_DecryptWithHMACSHA256 (encryptionKey : bytes)
  (derivationKey : string) (c : Chunk) (w : World) :
  DecryptWithHMACSHA256 (init (env_with_flag "1") w) = true
  /\ Decrypt encryptionKey derivationKey c (init (env_with_flag "1") w)
     = in_world (set_flag true) (Decrypt encryptionKey derivationKey c w).
Proof.
  split; [reflexivity |]. apply (Decrypt_flag true).
Qed.

End ChunkProperties.

(** ** The Sia storage backend *)

(** C8, as the code has it.  [FindChunk] asks [GetFileInfo] about the path
    ["chunks/" + id] (with [".fsl"] appended for a fossil).  When
    [GetFileInfo] returns no error, [FindChunk] returns that path with the
    existence and size [GetFileInfo] reported and no error; when
    [GetFileInfo] returns an error, [FindChunk] returns that error with an
    empty path, [false] and 0. *)
Theorem FindChunk_wraps_GetFileInfo (storage : SIAStorage) (threadIndex : Z)
  (chunkID : string) (isFossil : bool) :
  FindChunk storage threadIndex chunkID isFossil
  = match GetFileInfo storage threadIndex (chunk_path chunkID isFossil) with
    | (exist_, _, size_, None) =>
        (chunk_path chunkID isFossil, exist_, size_, None)
    | (_, _, _, Some e) => (""%string, false, 0%Z, Some e)
    end.
Proof.
  unfold FindChunk, chunk_path.
  destruct isFossil;
    destruct (GetFileInfo storage threadIndex _) as [[[e d] sz] [err |]];
    reflexivity.
Qed.

(** C8, as stated, fails when the client fails: [FindChunk] then returns an
    empty path, not the path it asked about. *)
Lemma FindChunk_error_has_empty_path :
  FindChunk failing_storage 0 "abc" false
  = (""%string, false, 0%Z,
     Some "dial tcp 127.0.0.1:9980: connection refused"%string)
  /\ FindChunk failing_storage 0 "abc" false
     <> (let '(exist_, _, size_, err) :=
           GetFileInfo failing_storage 0 (chunk_path "abc" false) in
         (chunk_path "abc" false, exist_, size_, err)).
Proof.
  split; [reflexivity | discriminate].
Qed.

Lemma GetFileInfo_loop_isDir (files : list FileInfo) (fPath : string) :
  snd (fst (fst (GetFileInfo_loop files fPath))) = false.
Proof.
  induction files as [| fi rest IH]; simpl; [reflexivity |].
  destruct (String.eqb (SiaPath fi) fPath); [reflexivity | exact IH].
Qed.

Lemma GetFileInfo_loop_absent (files : list FileInfo) (fPath : string) :
  (forall fi, In fi files -> SiaPath fi <> fPath) ->
  GetFileInfo_loop files fPath = (false, false, 0%Z, None).
Proof.
  induction files as [| fi rest IH]; intros H; simpl; [reflexivity |].
  destruct (String.eqb_spec (SiaPath fi) fPath) as [E | E].
  - exfalso. apply (H fi); [now left | exact E].
  - apply IH. intros fi' Hin. apply H. now right.
Qed.

(** C10. [GetFileInfo] never reports a directory.  When the listing succeeds
    and no remote file has the path [storageDir + "/" + path], it returns
    [exist = false], [size = 0] and no error; so [FindChunk] reports a
    missing chunk as absent, not as an error. *)
Theorem GetFileInfo_missing_file (storage : SIAStorage) (threadIndex : Z)
  (rf : RenterFiles) :
  Get_RenterFiles (client storage) "/renter/files" = inl rf ->
  (forall filePath, snd (fst (fst (GetFileInfo storage threadIndex filePath))) = false)
  /\ (forall filePath,
        (forall fi, In fi (Files rf) ->
                    SiaPath fi <> (storageDir storage ++ "/" ++ filePath)%string) ->
        GetFileInfo storage threadIndex filePath = (false, false, 0%Z, None))
  /\ (forall chunkID isFossil,
        (forall fi, In fi (Files rf) ->
                    SiaPath fi <> (storageDir storage ++ "/"
                                     ++ chunk_path chunkID isFossil)%string) ->
        FindChunk storage threadIndex chunkID isFossil
        = (chunk_path chunkID isFossil, false, 0%Z, None)).
Proof.
  intros Hget. repeat apply conj.
  - intros filePath. unfold GetFileInfo. rewrite Hget.
    apply GetFileInfo_loop_isDir.
  - intros filePath H. unfold GetFileInfo. rewrite Hget.
    now apply GetFileInfo_loop_absent.
  - intros chunkID isFossil H. unfold FindChunk, GetFileInfo. rewrite Hget.
    fold (chunk_path chunkID isFossil).
    now rewrite GetFileInfo_loop_absent.
Qed.

(** [GetFileInfo] reports no directory when the listing fails either. *)
Lemma GetFileInfo_isDir_false (storage : SIAStorage) (threadIndex : Z)
  (filePath : string) :
  snd (fst (fst (GetFileInfo storage threadIndex filePath))) = false.
Proof.
  unfold GetFileInfo.
  destruct (Get_RenterFiles (client storage) "/renter/files") as [rf | e];
    [apply GetFileInfo_loop_isDir | reflexivity].
Qed.

(** ** The theorems at concrete inputs *)

(** The initial pool is empty, so a scratch buffer is freshly made. *)
Lemma toy_world_allocatable : allocatable toy_world.
Proof. unfold allocatable. simpl. discriminate. Defined.

Lemma toy_key_nonempty : 0 < length toy_key.
Proof. simpl. lia. Defined.

(** "hello world", written in two pieces, encrypted under a 32-byte key
    with derivation key "chunk", decrypts to itself with the same hash. *)
Lemma Encrypt_Decrypt_roundtrip_witness :
  exists c2 w2 c3,
    Decrypt toy_key "chunk" (fst toy_encrypted) (snd toy_encrypted)
      = Returned None c2 w2
    /\ buffer c2 = Some (bytes_of_string "hello world")
    /\ GetHash c2 = Ok (fst toy_hashed, c3).
Proof.
  apply (Encrypt_Decrypt_roundtrip ToyLaws toy_chunk (snd toy_hashed)
           (fst toy_encrypted) [xff] toy_pieces toy_key "chunk" toy_world
           (snd toy_encrypted) (snd toy_encrypted) (fst toy_hashed)).
  - reflexivity.
  - reflexivity.
  - vm_compute. reflexivity.
  - unfold allocatable. vm_compute. discriminate.
Defined.

(** The envelope of "hello world": the header, then 32 + 64 + 13 bytes. *)
Lemma Encrypt_envelope_layout_witness :
  exists envelope w',
    Encrypt toy_key "chunk" toy_plain toy_world
      = Returned None (set_buffer (Some envelope) toy_plain) w'
    /\ firstn 10 envelope = bytes_of_string "duplicacy" ++ [x00]
    /\ length envelope = 10 + 32 + 64 + 13.
Proof.
  pose (salt := repeat (toy_byte 7) 32).
  pose (raw := toy_stretch 336 (salt ++ derived_key toy_key "chunk")).
  destruct (Encrypt_envelope_layout ToyLaws toy_plain toy_world toy_key "chunk"
              (bytes_of_string "hello world") salt
              (x28 :: xb5 :: bytes_of_string "hello world") raw 8
              (toy_block (blob_tweak raw) (blob_cipher_key raw))
              toy_key_nonempty eq_refl toy_world_allocatable eq_refl eq_refl
              eq_refl eq_refl)
    as (H & _).
  eexists. eexists. split; [exact H |]. split; vm_compute; reflexivity.
Defined.

(** C3, as stated, fails for a chunk object that is used again without a
    [Reset]: [Decrypt] clears the hash and leaves the cached identifier, so
    after the next [GetHash] the chunk has a computed hash, of all the bytes
    it holds, and [GetID] still returns the identifier derived from the
    earlier hash.  Every call of the run returns without an error. *)
Lemma GetID_returns_a_stale_id :
  GetID (write_all [bytes_of_string "hello "] (Reset true toy_chunk))
  = Ok toy_first_id
  /\ Encrypt toy_key "chunk"
       (snd (Write (bytes_of_string "world") (snd toy_first_id))) toy_world
     = Returned None (fst toy_reencrypted) (snd toy_reencrypted)
  /\ Decrypt toy_key "chunk" (fst toy_reencrypted) (snd toy_reencrypted)
     = Returned None (fst toy_redecrypted) (snd toy_redecrypted)
  /\ buffer (fst toy_redecrypted) = Some (bytes_of_string "hello world")
  /\ GetHash (fst toy_redecrypted) = Ok toy_rehashed
  /\ 0 < length (hash (snd toy_rehashed))
  /\ GetID (snd toy_rehashed) = Ok (fst toy_first_id, snd toy_rehashed)
  /\ fst toy_first_id
     <> expected_id (config (snd toy_rehashed)) (hash (snd toy_rehashed)).
Proof.
  repeat apply conj.
  - vm_compute. reflexivity.
  - vm_compute. reflexivity.
  - vm_compute. reflexivity.
  - vm_compute. reflexivity.
  - vm_compute. reflexivity.
  - vm_compute. lia.
  - vm_compute. reflexivity.
  - vm_compute. discriminate.
Qed.

(** A hash-only chunk with hash [0a 0b] and no identifier yet. *)
Lemma GetID_derives_and_caches_witness :
  exists c',
    GetID toy_hash_only = Ok (expected_id toy_config [x0a; x0b], c')
    /\ GetID c' = Ok (expected_id toy_config [x0a; x0b], c').
Proof.
  destruct (GetID_derives_and_caches toy_hash_only) as (c' & H1 & _ & _ & _ & H2).
  - simpl. lia.
  - left. reflexivity.
  - exists c'. split; [exact H1 | exact H2].
Defined.

(** A 3-byte envelope, one starting with "duplicity", and one with
    version byte 1. *)
Lemma Decrypt_header_checks_witness :
  Decrypt toy_key "chunk" toy_short toy_world
    = Returned (Some "No enough encrypted data (3 bytes) provided"%string)
        (set_buffer (Some []) toy_short) (after_call [x01; x02; x03] toy_world)
  /\ (exists w', Decrypt toy_key "chunk" toy_bad_magic toy_world
        = Returned (Some "The storage doesn't seem to be encrypted"%string)
            (set_buffer (Some []) toy_bad_magic) w')
  /\ (exists w', Decrypt toy_key "chunk" toy_version_1 toy_world
        = Returned (Some "Unsupported encryption version 1"%string)
            (set_buffer (Some []) toy_version_1) w').
Proof.
  repeat apply conj.
  - apply (Decrypt_header_checks toy_short toy_world toy_key "chunk" [x01; x02; x03]
             toy_key_nonempty eq_refl toy_world_allocatable).
    simpl. lia.
  - eexists.
    apply (Decrypt_header_checks toy_bad_magic toy_world toy_key "chunk" _
             toy_key_nonempty eq_refl toy_world_allocatable).
    + simpl. lia.
    + discriminate.
  - eexists.
    apply (proj2 (proj2 (Decrypt_header_checks toy_version_1 toy_world toy_key
                           "chunk" _ toy_key_nonempty eq_refl
                           toy_world_allocatable)) x01).
    + simpl. lia.
    + reflexivity.
    + reflexivity.
    + discriminate.
Defined.

(** "hello world" with an empty key. *)
Lemma Encrypt_Decrypt_unencrypted_witness :
  Encrypt [] "chunk" toy_plain toy_world
    = Returned None
        (set_buffer (Some (x28 :: xb5 :: bytes_of_string "hello world")) toy_plain)
        (after_call (bytes_of_string "hello world") toy_world)
  /\ Decrypt [] "chunk"
       (set_buffer (Some (x28 :: xb5 :: bytes_of_string "hello world")) toy_plain)
       toy_world
     = Returned None (with_plaintext (bytes_of_string "hello world") toy_plain)
         (after_call (x28 :: xb5 :: bytes_of_string "hello world") toy_world).
Proof.
  apply (Encrypt_Decrypt_unencrypted ToyLaws toy_plain toy_world toy_world
           "chunk" "chunk" (bytes_of_string "hello world")
           (x28 :: xb5 :: bytes_of_string "hello world")).
  - reflexivity.
  - exact toy_world_allocatable.
  - exact toy_world_allocatable.
  - reflexivity.
Defined.

(** The 3-byte envelope is rejected; the chunk is left empty and the three
    bytes are in the pool. *)
Lemma Decrypt_error_releases_envelope_witness :
  GetLength (set_buffer (Some []) toy_short) = 0
  /\ buffer (set_buffer (Some []) toy_short) = Some []
  /\ chunkBufferPool (after_call [x01; x02; x03] toy_world)
     = tl (chunkBufferPool toy_world) ++ [Some [x01; x02; x03]].
Proof.
  apply (Decrypt_error_releases_envelope ToyLaws toy_short
           (set_buffer (Some []) toy_short) toy_world
           (after_call [x01; x02; x03] toy_world) toy_key "chunk" [x01; x02; x03]
           "No enough encrypted data (3 bytes) provided"%string).
  - exact toy_key_nonempty.
  - reflexivity.
  - unfold pool_within_cap. simpl. lia.
  - reflexivity.
Defined.

(** The storage holds [chunks/abc] but not its fossil. *)
Lemma GetFileInfo_missing_file_witness :
  GetFileInfo toy_storage 0 "chunks/abc.fsl" = (false, false, 0%Z, None)
  /\ FindChunk toy_storage 0 "abc" true = ("chunks/abc.fsl"%string, false, 0%Z, None).
Proof.
  destruct (GetFileInfo_missing_file toy_storage 0 _ eq_refl) as (_ & H2 & H3).
  split.
  - apply H2. intros fi [<- | [<- | []]]; discriminate.
  - apply (H3 "abc"%string true). intros fi [<- | [<- | []]]; discriminate.
Defined.

(** The envelope of "hello world" with its MAC zeroed is rejected. *)
Lemma Decrypt_verifies_mac_witness :
  Decrypt toy_key "chunk" toy_tampered toy_world
  = Returned (Some "Unable to verify MAC"%string)
      (set_buffer (Some []) toy_tampered)
      (after_call toy_tampered_envelope toy_world).
Proof.
  pose (salt := firstn 32 (skipn 10 toy_tampered_envelope)).
  pose (raw := toy_stretch 336 (salt ++ derived_key toy_key "chunk")).
  refine (proj1 (Decrypt_verifies_mac ToyLaws toy_tampered toy_world toy_key
                   "chunk" toy_tampered_envelope raw
                   (toy_block (blob_tweak raw) (blob_cipher_key raw))
                   toy_key_nonempty eq_refl toy_world_allocatable _ eq_refl
                   eq_refl eq_refl) _).
  - vm_compute. lia.
  - vm_compute. discriminate.
Defined.

(** * Further properties of the chunk file *)

(** A running sum of lengths that fits an [int] is the same in [nat] and in
    [int]s of 32 or more bits. *)
Lemma int_size_after_fits (width : Z) (ps : list bytes) (size : nat) :
  (32 <= width)%Z ->
  fits_int (size + length (concat ps)) ->
  int_size_after width (Z.of_nat size) ps
  = Z.of_nat (size + length (concat ps)).
Proof.
  intros Hw. revert size. induction ps as [| p ps IH]; intros size Hfit.
  - simpl. now rewrite Nat.add_0_r.
  - simpl in Hfit |- *. rewrite length_app in *. rewrite Nat.add_assoc in *.
    assert (E : int_add width (Z.of_nat size) (Z.of_nat (length p))
                = Z.of_nat (size + length p)).
    { unfold int_add. unfold fits_int, MaxInt32 in Hfit.
      assert (H31 : (2 ^ 31 <= 2 ^ (width - 1))%Z)
        by (apply Z.pow_le_mono_r; lia).
      assert (H2 : (2 ^ width = 2 * 2 ^ (width - 1))%Z).
      { replace width with (Z.succ (width - 1)) at 1 by lia.
        apply Z.pow_succ_r. lia. }
      rewrite Z.mod_small by lia. lia. }
    rewrite E. apply IH. exact Hfit.
Qed.

Section MoreChunkProperties.

Context {L : Libs}.

Ltac unfold_steps :=
  unfold install_plaintext, mbind, mret, try, return_, get_config,
    encryptedBuffer_Write, encryptedBuffer_Bytes, chunk_buffer_Bytes,
    chunk_buffer_Reset, chunk_buffer_Write, update_chunk, swap_buffers,
    rand_Read_or_return, Buffer_Bytes, Buffer_Write, Buffer_Reset,
    of_sum, of_option in *.

Ltac frame_simpl := cbn [f_world f_chunk f_encryptedBuffer set_buffer buffer].

(** *** Reset, Write and the getters *)

Lemma Reset_fields (hashNeeded : bool) (c : Chunk) :
  buffer (Reset hashNeeded c) = option_map (fun _ => []) (buffer c)
  /\ hasher (Reset hashNeeded c)
     = (if hashNeeded
        then Some (NewKeyedHasher (config c) (HashKey (config c)))
        else None)
  /\ hash (Reset hashNeeded c) = []
  /\ id (Reset hashNeeded c) = ""%string
  /\ size (Reset hashNeeded c) = 0
  /\ config (Reset hashNeeded c) = config c.
Proof.
  unfold Reset, Buffer_Reset.
  destruct (buffer c) eqn:Hb, hashNeeded; simpl; rewrite ?Hb; repeat apply conj;
    reflexivity.
Qed.

Lemma Write_fields (p : bytes) (c : Chunk) :
  buffer (snd (Write p c)) = option_map (fun b => b ++ p) (buffer c)
  /\ hasher (snd (Write p c)) = option_map (fun h => Hasher_Write h p) (hasher c)
  /\ size (snd (Write p c))
     = match buffer c with
       | Some _ => size c
       | None => size c + length p
       end
  /\ hash (snd (Write p c)) = hash c
  /\ id (snd (Write p c)) = id c
  /\ config (snd (Write p c)) = config c.
Proof.
  unfold Write, Buffer_Write.
  destruct (buffer c) eqn:Hb, (hasher c) eqn:Hh;
    repeat (progress (cbn; rewrite ?Hh, ?Hb));
    repeat apply conj; reflexivity.
Qed.

Lemma write_all_fields (ps : list bytes) (c : Chunk) :
  buffer (write_all ps c) = option_map (fun b => b ++ concat ps) (buffer c)
  /\ hasher (write_all ps c)
     = option_map (fun h => Hasher_Write h (concat ps)) (hasher c)
  /\ size (write_all ps c)
     = match buffer c with
       | Some _ => size c
       | None => size c + length (concat ps)
       end
  /\ hash (write_all ps c) = hash c
  /\ id (write_all ps c) = id c
  /\ config (write_all ps c) = config c.
Proof.
  revert c. induction ps as [| p ps IH]; intros c.
  - simpl. repeat apply conj; try reflexivity.
    + destruct (buffer c); simpl; now rewrite ?app_nil_r.
    + destruct (hasher c) as [[cfg k wr] |]; simpl; [| reflexivity].
      unfold Hasher_Write. simpl. now rewrite app_nil_r.
    + destruct (buffer c); lia.
  - change (write_all (p :: ps) c) with (write_all ps (snd (Write p c))).
    destruct (IH (snd (Write p c))) as (I1 & I2 & I3 & I4 & I5 & I6).
    destruct (Write_fields p c) as (W1 & W2 & W3 & W4 & W5 & W6).
    rewrite I1, I2, I3, I4, I5, I6, W1, W2, W3, W4, W5, W6. simpl concat.
    repeat apply conj; try reflexivity.
    + destruct (buffer c); simpl; now rewrite <- ?app_assoc.
    + destruct (hasher c); simpl; [| reflexivity].
      unfold Hasher_Write. simpl. now rewrite <- app_assoc.
    + destruct (buffer c); simpl; rewrite ?length_app; lia.
Qed.

(** X1. After [Reset(true)], whatever the chunk held before, whether or not
    it has a buffer, and however the plaintext is cut into [Write] calls,
    [GetHash] returns the keyed digest, under [config.HashKey], of the
    concatenation of the bytes written, and caches it in the chunk. *)
Theorem GetHash_after_writes (c : Chunk) (ps : list bytes) :
  let d := KeyedHasher_Sum (config c) (HashKey (config c)) (concat ps) in
  GetHash (write_all ps (Reset true c))
  = Ok (string_of_list_byte d, set_hash d (write_all ps (Reset true c))).
Proof.
  intros d.
  destruct (write_all_fields ps (Reset true c)) as (_ & Wh & _ & Whash & _ & _).
  destruct (Reset_fields true c) as (_ & Rh & Rhash & _ & _ & _).
  rewrite Rh in Wh. rewrite Rhash in Whash.
  unfold GetHash. rewrite Whash, Wh. reflexivity.
Qed.

(** X2. After [Reset] and any sequence of writes, [GetLength] is the number
    of bytes written: for a chunk with a buffer always, for a hash-only
    chunk as long as that number fits an [int] (the count is kept in
    [chunk.size], and is then what [size += len(p)] gives on [int]s of 32
    and of 64 bits).  [GetBytes] returns those bytes for a chunk with a
    buffer and panics (nil dereference) for a hash-only chunk. *)
Theorem GetLength_GetBytes_after_writes (hashNeeded : bool) (c : Chunk)
  (ps : list bytes) :
  (buffer c = None -> fits_int (length (concat ps))) ->
  GetLength (write_all ps (Reset hashNeeded c)) = length (concat ps)
  /\ (buffer c = None ->
      Z.of_nat (GetLength (write_all ps (Reset hashNeeded c)))
      = int_size_after 32 0 ps
      /\ Z.of_nat (GetLength (write_all ps (Reset hashNeeded c)))
         = int_size_after 64 0 ps)
  /\ GetBytes (write_all ps (Reset hashNeeded c))
     = match buffer c with
       | Some _ => Ok (concat ps)
       | None => Panic
       end.
Proof.
  intros Hfit.
  destruct (write_all_fields ps (Reset hashNeeded c)) as (Wb & _ & Ws & _ & _ & _).
  destruct (Reset_fields hashNeeded c) as (Rb & _ & _ & _ & Rs & _).
  rewrite Rb in Wb, Ws. rewrite Rs in Ws.
  assert (Hlen : GetLength (write_all ps (Reset hashNeeded c))
                 = length (concat ps)).
  { unfold GetLength, Buffer_Bytes. rewrite Wb, Ws.
    destruct (buffer c); reflexivity. }
  repeat apply conj.
  - exact Hlen.
  - intros Hn. rewrite Hlen.
    split; symmetry;
      apply (int_size_after_fits _ ps 0); try lia; exact (Hfit Hn).
  - unfold GetBytes, Buffer_Bytes. rewrite Wb.
    destruct (buffer c); reflexivity.
Qed.

(** X3. Once a hash is cached in the chunk, bytes written afterwards do not
    show in [GetHash]: it keeps returning the cached hash (until the next
    [Reset]) and leaves the chunk as it is. *)
Theorem GetHash_returns_cached_hash (c : Chunk) (ps : list bytes) :
  0 < length (hash c) ->
  GetHash (write_all ps c) = Ok (string_of_list_byte (hash c), write_all ps c).
Proof.
  intros Hlen.
  destruct (write_all_fields ps c) as (_ & _ & _ & Whash & _ & _).
  unfold GetHash. rewrite Whash.
  destruct (Nat.eqb_spec (length (hash c)) 0) as [E | E]; [lia |].
  simpl. now rewrite Whash.
Qed.

(** X4. After [Reset(false)] the chunk has no hasher: [GetHash] and [GetID]
    panic, whatever is written first. *)
Theorem GetHash_GetID_without_hasher (c : Chunk) (ps : list bytes) :
  GetHash (write_all ps (Reset false c)) = Panic
  /\ GetID (write_all ps (Reset false c)) = Panic.
Proof.
  destruct (write_all_fields ps (Reset false c)) as (_ & Wh & _ & Whash & Wid & _).
  destruct (Reset_fields false c) as (_ & Rh & Rhash & Rid & _ & _).
  rewrite Rh in Wh. rewrite Rhash in Whash. rewrite Rid in Wid.
  unfold GetHash, GetID. rewrite Whash, Wh, ?Wid. split; reflexivity.
Qed.

(** X5. Determinism of identity.  After [Reset(true)] and any writes,
    [GetID] finalises the hasher itself and returns the identifier derived
    from [config.IDKey] and the keyed digest of the bytes written; the
    result depends on the chunk only through its configuration. *)
Theorem GetID_after_writes (c : Chunk) (ps : list bytes) :
  let d := KeyedHasher_Sum (config c) (HashKey (config c)) (concat ps) in
  GetID (write_all ps (Reset true c))
  = Ok (expected_id (config c) d,
        set_id (expected_id (config c) d)
          (set_hash d (write_all ps (Reset true c)))).
Proof.
  intros d.
  destruct (write_all_fields ps (Reset true c)) as (_ & Wh & _ & Whash & Wid & Wcfg).
  destruct (Reset_fields true c) as (_ & Rh & Rhash & Rid & _ & Rcfg).
  rewrite Rh in Wh. rewrite Rhash in Whash. rewrite Rid in Wid.
  rewrite Rcfg in Wcfg.
  unfold GetID. rewrite Wid, Whash, Wh. simpl.
  unfold expected_id. rewrite Wcfg. reflexivity.
Qed.

(** *** threefishCTR *)

Lemma threefishCTR_dst_length (key salt src dst mac : bytes) (enc : bool) :
  threefishCTR key salt src enc = Ok (dst, mac) -> length dst = length src.
Proof.
  unfold threefishCTR, rbind, of_sum, of_option.
  destruct (argon2_Hash threefishCTR_cfg key salt) as [raw | e]; [| discriminate].
  destruct (slice raw BlockSize1024 (BlockSize1024 + TweakSize)) as [tweak |];
    [| discriminate].
  destruct (slice raw 0 BlockSize1024) as [k |]; [| discriminate].
  destruct (threefish_NewCipher (copy (repeat x00 TweakSize) tweak) k) as [t3f | e];
    [| discriminate].
  destruct (slice_from raw (BlockSize1024 + TweakSize + BlockSize512)) as [iv |];
    [| discriminate].
  destruct (CTR_XORKeyStream t3f iv src) as [d |] eqn:Hx; [| discriminate].
  destruct (slice raw (BlockSize1024 + TweakSize)
              (BlockSize1024 + TweakSize + BlockSize512)) as [mk |]; [| discriminate].
  intros [= <- _]. exact (CTR_XORKeyStream_length _ _ _ _ Hx).
Qed.

(** X6. [threefishCTR] keeps the length of its input, and decrypting (last
    argument [false]) what it encrypted (last argument [true]) under the
    same key and salt gives the input back together with the very MAC the
    encryption produced. *)
Theorem threefishCTR_inverts_itself (key salt src dst mac : bytes) :
  threefishCTR key salt src true = Ok (dst, mac) ->
  length dst = length src
  /\ threefishCTR key salt dst false = Ok (src, mac).
Proof.
  intros H. split.
  - exact (threefishCTR_dst_length _ _ _ _ _ _ H).
  - now apply threefishCTR_roundtrip.
Qed.

(** *** Encrypt and Decrypt: what they change *)

(** Every way [Encrypt]'s body can return. *)
Lemma Encrypt_body_returns (c : Chunk) (w1 : World) (encryptionKey : bytes)
  (derivationKey : string) (err : option error) (f : Frame) :
  Encrypt_body encryptionKey derivationKey
    {| f_chunk := c; f_encryptedBuffer := Some []; f_world := w1 |}
    = Returns err f ->
  (exists r, f_world f = set_rand r w1
             /\ (length encryptionKey = 0 -> r = rand_state w1))
  /\ exists released,
       f_encryptedBuffer f = Some released
       /\ match err with
          | Some _ => f_chunk f = c
          | None => buffer c = Some released
                    /\ exists envelope, f_chunk f = set_buffer (Some envelope) c
          end.
Proof.
  assert (Hw : forall w : World, w = set_rand (rand_state w) w)
    by (intros []; reflexivity).
  unfold Encrypt_body. unfold_steps.
  destruct (Nat.ltb_spec 0 (length encryptionKey)) as [Hkey | Hkey]; frame_simpl.
  - destruct (rand_Read 32 (rand_state w1)) as [[salt | e] r'].
    + frame_simpl.
      destruct (buffer c) as [P |] eqn:Hb; [| discriminate]. frame_simpl.
      destruct (zstd_CompressLevel P _) as [compressed | e].
      * replace (length encryptionKey =? 0) with false
          by (symmetry; apply Nat.eqb_neq; lia).
        destruct (threefishCTR _ salt compressed true) as [[ct mac] | e |].
        -- frame_simpl. intros [= <- <-]. frame_simpl. split.
           ++ exists r'. split; [reflexivity | lia].
           ++ exists P. rewrite Hb. repeat split. eexists. reflexivity.
        -- intros [= <- <-]. frame_simpl. split.
           ++ exists r'. split; [reflexivity | lia].
           ++ eexists. split; reflexivity.
        -- discriminate.
      * intros [= <- <-]. frame_simpl. split.
        -- exists r'. split; [reflexivity | lia].
        -- eexists. split; reflexivity.
    + intros [= <- <-]. frame_simpl. split.
      * exists r'. split; [reflexivity | lia].
      * eexists. split; reflexivity.
  - destruct (buffer c) as [P |] eqn:Hb; [| discriminate]. frame_simpl.
    destruct (zstd_CompressLevel P _) as [compressed | e].
    + replace (length encryptionKey =? 0) with true
        by (symmetry; apply Nat.eqb_eq; lia).
      frame_simpl. intros [= <- <-]. frame_simpl. split.
      * exists (rand_state w1). split; [apply Hw | reflexivity].
      * exists P. rewrite Hb. repeat split. eexists. reflexivity.
    + intros [= <- <-]. frame_simpl. split.
      * exists (rand_state w1). split; [apply Hw | reflexivity].
      * eexists. split; reflexivity.
Qed.

(** Every way [Decrypt]'s body can return. *)
Lemma Decrypt_body_returns (c : Chunk) (w1 : World) (encryptionKey : bytes)
  (derivationKey : string) (err : option error) (f : Frame) :
  Decrypt_body encryptionKey derivationKey
    {| f_chunk := c; f_encryptedBuffer := Some []; f_world := w1 |}
    = Returns err f ->
  f_world f = w1
  /\ exists envelope,
       buffer c = Some envelope
       /\ f_encryptedBuffer f = Some envelope
       /\ match err with
          | Some _ => f_chunk f = set_buffer (Some []) c
          | None => exists P, f_chunk f = with_plaintext P c
          end.
Proof.
  unfold Decrypt_body. unfold_steps. frame_simpl.
  destruct (0 <? length encryptionKey); frame_simpl.
  - destruct (buffer c) as [envelope |] eqn:Hb; [| discriminate]. cbv beta iota.
    destruct (length envelope <? _);
      [intros [= <- <-]; split; [| exists envelope]; now rewrite ?Hb |].
    destruct (slice envelope 0 _) as [magic |]; [| discriminate].
    destruct (negb (String.eqb _ _));
      [intros [= <- <-]; split; [| exists envelope]; now rewrite ?Hb |].
    destruct (index envelope _) as [version |]; [| discriminate].
    destruct (negb (byte_val version =? 0));
      [intros [= <- <-]; split; [| exists envelope]; now rewrite ?Hb |].
    destruct (slice envelope _ _) as [salt |]; [| discriminate].
    destruct (slice envelope _ _) as [chunkSkeinMac |]; [| discriminate].
    destruct (slice_from envelope _) as [ciphertext |]; [| discriminate].
    destruct (threefishCTR _ salt ciphertext false) as [[decrypted skeinMac] | e' |];
      [| intros [= <- <-]; split; [| exists envelope]; now rewrite ?Hb
       | discriminate].
    destruct (negb (bytes_Compare chunkSkeinMac skeinMac =? 0)%Z);
      [intros [= <- <-]; split; [| exists envelope]; now rewrite ?Hb |].
    frame_simpl.
    destruct (zstd_Decompress decrypted) as [P | e'];
      intros [= <- <-]; (split; [reflexivity |]); exists envelope;
      rewrite ?Hb; repeat split.
    exists P. reflexivity.
  - destruct (buffer c) as [envelope |] eqn:Hb; [| discriminate]. cbv beta iota.
    destruct (zstd_Decompress envelope) as [P | e'];
      intros [= <- <-]; (split; [reflexivity |]); exists envelope;
      rewrite ?Hb; repeat split.
    exists P. reflexivity.
Qed.

Lemma allocate_pool (w : World) :
  chunkBufferPool (snd (AllocateChunkBuffer w)) = tl (chunkBufferPool w)
  /\ DecryptWithHMACSHA256 (snd (AllocateChunkBuffer w)) = DecryptWithHMACSHA256 w
  /\ rand_state (snd (AllocateChunkBuffer w)) = rand_state w
  /\ log_info (snd (AllocateChunkBuffer w)) = log_info w.
Proof.
  unfold AllocateChunkBuffer.
  destruct (chunkBufferPool w) as [| x rest] eqn:Hp; simpl; rewrite ?Hp;
    repeat split.
Qed.

Lemma release_with_room (HL : LibsLaws L) (w w1 : World) (b : option Buffer) :
  pool_within_cap w ->
  chunkBufferPool w1 = tl (chunkBufferPool w) ->
  ReleaseChunkBuffer b w1 = set_pool (tl (chunkBufferPool w) ++ [b]) w1.
Proof.
  intros Hcap Hp. pose proof runtime_NumCPU_pos as Hcpu.
  unfold ReleaseChunkBuffer, pool_within_cap, chunkBufferPool_cap in *.
  rewrite Hp.
  destruct (Nat.ltb_spec (length (tl (chunkBufferPool w))) (runtime_NumCPU * 16))
    as [_ | Hfull]; [reflexivity |].
  destruct (chunkBufferPool w); simpl in *; lia.
Qed.

(** X7. [Encrypt] changes nothing of the chunk but its buffer: hasher,
    cached hash, id, size and configuration stay as they were, so [GetHash]
    and [GetID] still speak of the plaintext.  When [Encrypt] returns an
    error, the buffer is untouched too: the chunk is exactly what it was. *)
Theorem Encrypt_changes_only_the_buffer (c c1 : Chunk) (w w1 : World)
  (encryptionKey : bytes) (derivationKey : string) (err : option error) :
  Encrypt encryptionKey derivationKey c w = Returned err c1 w1 ->
  c1 = set_buffer (buffer c1) c
  /\ (err <> None -> c1 = c).
Proof.
  unfold Encrypt, with_encryptedBuffer.
  destruct (AllocateChunkBuffer w) as [[scratch |] w0]; [| discriminate].
  unfold Buffer_Reset.
  destruct (Encrypt_body encryptionKey derivationKey _) as [[] | err' f |] eqn:Hbody;
    [| discriminate].
  intros [= -> <- _].
  destruct (Encrypt_body_returns _ _ _ _ _ _ Hbody) as (_ & released & _ & Hc).
  destruct err as [e |].
  - rewrite Hc. split; [now destruct c | reflexivity].
  - destruct Hc as (_ & envelope & ->). split; [reflexivity | congruence].
Qed.

(** X8. The envelope is exactly 106 bytes longer than the compressed
    plaintext when a key is given (header 10, salt 32, MAC 64; counter mode
    adds nothing), and exactly as long when the key is empty. *)
Theorem Encrypt_overhead (HL : LibsLaws L) (c c1 : Chunk) (w w1 : World)
  (encryptionKey : bytes) (derivationKey : string) (P : bytes) :
  buffer c = Some P ->
  Encrypt encryptionKey derivationKey c w = Returned None c1 w1 ->
  exists compressed,
    zstd_CompressLevel P (CompressionLevel (config c)) = inl compressed
    /\ GetLength c1
       = (if length encryptionKey =? 0 then 0 else 10 + 32 + 64) + length compressed.
Proof.
  intros Hb Henc.
  destruct (Encrypt_success_inv HL _ _ _ _ _ _ _ Hb Henc)
    as (compressed & Hz & [[Hk ->] | [Hk (salt & ct & mac & Hsalt & Hctr & ->)]]);
    exists compressed; (split; [exact Hz |]).
  - rewrite Hk. reflexivity.
  - replace (length encryptionKey =? 0) with false
      by (symmetry; apply Nat.eqb_neq; lia).
    unfold GetLength, Buffer_Bytes. cbn [buffer set_buffer].
    rewrite !length_app, Hsalt.
    rewrite (threefishCTR_mac_length HL _ _ _ _ _ _ Hctr).
    rewrite (threefishCTR_dst_length _ _ _ _ _ _ Hctr). reflexivity.
Qed.

Lemma Decrypt_returns (c c' : Chunk) (w w' : World) (encryptionKey : bytes)
  (derivationKey : string) (err : option error) :
  Decrypt encryptionKey derivationKey c w = Returned err c' w' ->
  exists envelope,
    buffer c = Some envelope
    /\ w' = ReleaseChunkBuffer (Some envelope) (snd (AllocateChunkBuffer w))
    /\ match err with
       | Some _ => c' = set_buffer (Some []) c
       | None => exists P, c' = with_plaintext P c
       end.
Proof.
  unfold Decrypt, with_encryptedBuffer.
  destruct (AllocateChunkBuffer w) as [[scratch |] w0]; [| discriminate].
  unfold Buffer_Reset.
  destruct (Decrypt_body encryptionKey derivationKey _) as [[] | err' f |] eqn:Hbody;
    [| discriminate].
  intros [= -> <- <-].
  destruct (Decrypt_body_returns _ _ _ _ _ _ Hbody)
    as (Hw & envelope & Hb & Heb & Hc).
  exists envelope. rewrite Hw, Heb. repeat split; assumption.
Qed.

(** X9. After a successful [Decrypt], with or without a key, the hasher
    agrees with the buffer: [GetBytes] returns the plaintext and [GetHash]
    returns the keyed digest of exactly those bytes.  The cached hash was
    cleared; the cached id, the size and the configuration are those from
    before the call. *)
Theorem Decrypt_leaves_a_consistent_hasher (c c' : Chunk) (w w' : World)
  (encryptionKey : bytes) (derivationKey : string) :
  Decrypt encryptionKey derivationKey c w = Returned None c' w' ->
  exists P,
    GetBytes c' = Ok P
    /\ GetHash c'
       = Ok (string_of_list_byte
               (KeyedHasher_Sum (config c) (HashKey (config c)) P),
             set_hash (KeyedHasher_Sum (config c) (HashKey (config c)) P) c')
    /\ id c' = id c /\ size c' = size c /\ config c' = config c.
Proof.
  intros H. destruct (Decrypt_returns _ _ _ _ _ _ _ H) as (_ & _ & _ & P & ->).
  exists P. repeat split.
Qed.

(** X10. On every error return of [Decrypt], with or without a key (with an
    empty key: when zstd rejects the data), the chunk ends with an empty
    buffer and with its hasher, hash, id and size as before the call; the
    envelope is not put back. *)
Theorem Decrypt_error_empties_the_chunk (c c' : Chunk) (w w' : World)
  (encryptionKey : bytes) (derivationKey : string) (e : error) :
  Decrypt encryptionKey derivationKey c w = Returned (Some e) c' w' ->
  c' = set_buffer (Some []) c /\ GetLength c' = 0.
Proof.
  intros H. destruct (Decrypt_returns _ _ _ _ _ _ _ H) as (_ & _ & _ & ->).
  split; reflexivity.
Qed.

Lemma set_pool_after_allocate (p : list (option Buffer)) (r : RandState)
  (w : World) :
  set_pool p (set_rand r (snd (AllocateChunkBuffer w))) = set_pool p (set_rand r w).
Proof.
  unfold AllocateChunkBuffer. destruct (chunkBufferPool w); reflexivity.
Qed.

(** X11. Whenever [Decrypt] returns, with success or with an error, all it
    has done to the package state is to take the oldest buffer out of the
    pool (if there was one) and to append the buffer that held the envelope:
    the random source, the flag and the log are untouched. *)
Theorem Decrypt_package_state (HL : LibsLaws L) (c c' : Chunk) (w w' : World)
  (encryptionKey : bytes) (derivationKey : string) (err : option error) :
  pool_within_cap w ->
  Decrypt encryptionKey derivationKey c w = Returned err c' w' ->
  exists envelope,
    buffer c = Some envelope
    /\ w' = set_pool (tl (chunkBufferPool w) ++ [Some envelope]) w.
Proof.
  intros Hcap H.
  destruct (Decrypt_returns _ _ _ _ _ _ _ H) as (envelope & Hb & -> & _).
  exists envelope. split; [exact Hb |].
  destruct (allocate_pool w) as (Hp & _).
  rewrite (release_with_room HL w _ _ Hcap Hp).
  destruct w as [pool flag r lg]. unfold AllocateChunkBuffer. simpl.
  destruct pool; reflexivity.
Qed.

(** X12. After a successful [Encrypt] the buffer that held the plaintext,
    with the plaintext still in it, is the newest entry of the pool.  The
    random source is advanced only by the one read of the salt, and not at
    all when the key is empty; the flag and the log are untouched. *)
Theorem Encrypt_package_state (HL : LibsLaws L) (c c1 : Chunk) (w w1 : World)
  (encryptionKey : bytes) (derivationKey : string) :
  pool_within_cap w ->
  Encrypt encryptionKey derivationKey c w = Returned None c1 w1 ->
  exists P r,
    buffer c = Some P
    /\ w1 = set_pool (tl (chunkBufferPool w) ++ [Some P]) (set_rand r w)
    /\ (length encryptionKey = 0 -> r = rand_state w)
    /\ (0 < length encryptionKey ->
        r = snd (rand_Read 32 (rand_state w))).
Proof.
  intros Hcap. unfold Encrypt, with_encryptedBuffer.
  destruct (allocate_pool w) as (Hp & _ & Hr & _).
  destruct (AllocateChunkBuffer w) as [[scratch |] w0] eqn:Halloc; [| discriminate].
  simpl in Hp, Hr. unfold Buffer_Reset.
  destruct (Encrypt_body encryptionKey derivationKey _) as [[] | err' f |] eqn:Hbody;
    [| discriminate].
  intros [= -> <- <-].
  destruct (Encrypt_body_returns _ _ _ _ _ _ Hbody)
    as ((r & Hw & Hr0) & released & Heb & Hb & _).
  exists released, r. rewrite Heb, Hw. repeat apply conj.
  - exact Hb.
  - rewrite (release_with_room HL w _ _ Hcap) by exact Hp.
    replace w0 with (snd (AllocateChunkBuffer w)) by now rewrite Halloc.
    rewrite set_pool_after_allocate.
    destruct w; reflexivity.
  - intros Hk. rewrite (Hr0 Hk). exact Hr.
  - intros Hk. revert Hbody. unfold Encrypt_body. unfold_steps.
    rewrite (proj2 (Nat.ltb_lt _ _) Hk). frame_simpl. rewrite Hr.
    destruct (rand_Read 32 (rand_state w)) as [[salt | e] r'].
    + frame_simpl. destruct (buffer c) as [P |]; [| discriminate]. frame_simpl.
      destruct (zstd_CompressLevel P _) as [compressed | e]; [| discriminate].
      replace (length encryptionKey =? 0) with false
        by (symmetry; apply Nat.eqb_neq; lia).
      destruct (threefishCTR _ salt compressed true) as [[ct mac] | e |];
        [| discriminate | discriminate].
      frame_simpl. intros [= <-]. cbn [f_world] in Hw.
      apply (f_equal rand_state) in Hw. simpl in Hw. simpl. congruence.
    + discriminate.
Qed.

(** X13. The pool never outgrows its channel: whenever [Encrypt] or
    [Decrypt] returns, with success or with an error, a pool that held at
    most [runtime.NumCPU()*16] buffers still does. *)
Theorem pool_stays_within_cap (c c' : Chunk) (w w' : World)
  (encryptionKey : bytes) (derivationKey : string) (err : option error) :
  pool_within_cap w ->
  Encrypt encryptionKey derivationKey c w = Returned err c' w'
  \/ Decrypt encryptionKey derivationKey c w = Returned err c' w' ->
  pool_within_cap w'.
Proof.
  intros Hcap H.
  assert (Hrel : forall b w0, chunkBufferPool w0 = tl (chunkBufferPool w) ->
                              pool_within_cap (ReleaseChunkBuffer b w0)).
  { intros b w0 Hp. unfold pool_within_cap, ReleaseChunkBuffer in *.
    destruct (Nat.ltb_spec (length (chunkBufferPool w0)) chunkBufferPool_cap).
    - simpl. rewrite length_app. simpl. lia.
    - simpl. rewrite Hp. destruct (chunkBufferPool w); simpl in *; lia. }
  destruct (allocate_pool w) as (Hp & _).
  destruct H as [H | H].
  - revert H. unfold Encrypt, with_encryptedBuffer.
    destruct (AllocateChunkBuffer w) as [[scratch |] w0]; [| discriminate].
    simpl in Hp. unfold Buffer_Reset.
    destruct (Encrypt_body encryptionKey derivationKey _) as [[] | err' f |] eqn:Hbody;
      [| discriminate].
    intros [= _ _ <-].
    destruct (Encrypt_body_returns _ _ _ _ _ _ Hbody) as ((r & Hw & _) & _).
    apply Hrel. rewrite Hw. exact Hp.
  - destruct (Decrypt_returns _ _ _ _ _ _ _ H) as (envelope & _ & -> & _).
    apply Hrel. exact Hp.
Qed.

(** *** VerifyID *)

(** X14. With an id cached in the chunk, [VerifyID] recomputes the id from
    the bytes in the buffer alone (the chunk's hasher and cached hash are
    not consulted) and calls [LOG_ERROR] exactly when the result differs
    from the cached id; the chunk is not changed. *)
Theorem VerifyID_checks_the_cached_id (c : Chunk) (B : bytes) :
  buffer c = Some B ->
  id c <> ""%string ->
  let recomputed :=
    expected_id (config c) (KeyedHasher_Sum (config c) (HashKey (config c)) B) in
  VerifyID c
  = Ok (if String.eqb recomputed (id c)
        then None
        else Some ("CHUNK_ID"%string,
                   ("The chunk id should be " ++ recomputed ++ " instead of "
                      ++ id c ++ ", length: " ++ fmt_d (length B))%string),
        c).
Proof.
  intros Hb Hid recomputed.
  assert (Hget : GetID c = Ok (id c, c)).
  { unfold GetID. destruct (id c); [contradiction | reflexivity]. }
  unfold VerifyID. rewrite Hb. cbn [of_option rbind].
  rewrite Hget. cbn [rbind fst snd].
  unfold Buffer_Bytes, Hasher_Sum, Hasher_Write, NewKeyedHasher.
  cbn [hasher_config hasher_key hasher_written app].
  fold (expected_id (config c) (KeyedHasher_Sum (config c) (HashKey (config c)) B)).
  fold recomputed.
  destruct (String.eqb recomputed (id c)); [reflexivity |].
  cbn [negb]. rewrite Hget. cbn [rbind fst snd]. rewrite Hb. reflexivity.
Qed.

(** X15. [VerifyID] right after a successful [Decrypt] of a chunk that had
    no id cached (as after [Reset]) never calls [LOG_ERROR]: the id it
    compares with is derived, by [GetID], from the hasher that [Decrypt]
    fed with the very bytes in the buffer. *)
Theorem VerifyID_after_Decrypt_cannot_fail (c c' : Chunk) (w w' : World)
  (encryptionKey : bytes) (derivationKey : string) :
  id c = ""%string ->
  Decrypt encryptionKey derivationKey c w = Returned None c' w' ->
  exists c'', VerifyID c' = Ok (None, c'').
Proof.
  intros Hid H. destruct (Decrypt_returns _ _ _ _ _ _ _ H) as (_ & _ & _ & P & ->).
  eexists. unfold VerifyID, with_plaintext, GetID. cbn. rewrite Hid. cbn.
  rewrite String.eqb_refl. reflexivity.
Qed.

End MoreChunkProperties.

(** * Further properties: CreateChunk *)

Section PoolProperties.

Context {L : Libs}.

(** X24. A chunk fresh from [CreateChunk] is empty and has no hasher: until
    [Reset(true)] is called, bytes written to it are counted (for a chunk
    without a buffer: as long as their number fits an [int]) and stored, but
    [GetHash] and [GetID] panic. *)
Theorem CreateChunk_has_no_hasher (cfg : Config) (bufferNeeded : bool)
  (c : Chunk) (w w' : World) (ps : list bytes) :
  CreateChunk cfg bufferNeeded w = Ok (c, w') ->
  (bufferNeeded = false -> fits_int (length (concat ps))) ->
  GetLength c = 0
  /\ GetLength (write_all ps c) = length (concat ps)
  /\ (bufferNeeded = false ->
      Z.of_nat (GetLength (write_all ps c)) = int_size_after 32 0 ps
      /\ Z.of_nat (GetLength (write_all ps c)) = int_size_after 64 0 ps)
  /\ GetHash (write_all ps c) = Panic
  /\ GetID (write_all ps c) = Panic.
Proof.
  intros H Hfit.
  assert (Hc : exists b, c = {| buffer := b; size := 0; hasher := None;
                                hash := []; id := ""; config := cfg |}
                         /\ (b = None \/ b = Some [])).
  { revert H. unfold CreateChunk. destruct bufferNeeded.
    - destruct (AllocateChunkBuffer w) as [[b |] w1]; [| discriminate].
      intros [= <- _]. eexists. split; [reflexivity | now right].
    - intros [= <- _]. eexists. split; [reflexivity | now left]. }
  destruct Hc as (b & -> & Hb).
  set (c0 := {| buffer := b; size := 0; hasher := None; hash := []; id := "";
                config := cfg |}).
  destruct (write_all_fields ps c0) as (Wb & Wh & Ws & Whash & Wid & _).
  simpl in Wb, Wh, Ws, Whash, Wid.
  repeat apply conj.
  - destruct Hb as [-> | ->]; reflexivity.
  - unfold GetLength, Buffer_Bytes. rewrite Wb, Ws.
    destruct Hb as [-> | ->]; reflexivity.
  - intros Hn.
    assert (Hlen : GetLength (write_all ps c0) = length (concat ps)).
    { unfold GetLength, Buffer_Bytes. rewrite Wb, Ws.
      destruct Hb as [-> | ->]; reflexivity. }
    rewrite Hlen.
    split; symmetry;
      apply (int_size_after_fits _ ps 0); try lia; exact (Hfit Hn).
  - unfold GetHash. now rewrite Whash, Wh.
  - unfold GetID. now rewrite Wid, Whash, Wh.
Qed.

End PoolProperties.

(** * Further properties of the Sia backend *)

(** *** Go strings *)

Lemma string_app_assoc (a b c : string) :
  ((a ++ b) ++ c = a ++ (b ++ c))%string.
Proof. induction a as [| x a IH]; simpl; [reflexivity | now rewrite IH]. Qed.

Lemma string_app_nil_r (a : string) : (a ++ "")%string = a.
Proof. induction a as [| x a IH]; simpl; [reflexivity | now rewrite IH]. Qed.

Lemma string_length_app (a b : string) :
  String.length (a ++ b) = String.length a + String.length b.
Proof. induction a as [| x a IH]; simpl; [reflexivity | now rewrite IH]. Qed.

Lemma substring_0_all (s : string) : substring 0 (String.length s) s = s.
Proof. induction s as [| x s IH]; simpl; [reflexivity | now rewrite IH]. Qed.

Lemma string_to_app (a b : string) : string_to (a ++ b) (String.length a) = a.
Proof.
  unfold string_to. induction a as [| x a IH]; simpl.
  - now destruct b.
  - now rewrite IH.
Qed.

Lemma string_from_app (a b : string) : string_from (a ++ b) (String.length a) = b.
Proof.
  unfold string_from. rewrite string_length_app.
  replace (String.length a + String.length b - String.length a)
    with (String.length b) by lia.
  induction a as [| x a IH]; simpl; [apply substring_0_all | exact IH].
Qed.

Lemma string_to_from (s : string) (n : nat) :
  n <= String.length s -> (string_to s n ++ string_from s n)%string = s.
Proof.
  unfold string_to, string_from. revert s.
  induction n as [| n IH]; intros s Hn.
  - rewrite Nat.sub_0_r, substring_0_all. now destruct s.
  - destruct s as [| x s]; simpl in *; [lia |].
    rewrite IH by lia. reflexivity.
Qed.

(** A file passes the test of [ListFiles] exactly when its path is the
    directory path followed by a non-empty rest, and the rest is what the
    loops append. *)
Lemma ListFiles_under_iff (dirPath : string) (fi : FileInfo) :
  ListFiles_under dirPath fi = true
  <-> exists rest, rest <> ""%string /\ SiaPath fi = (dirPath ++ rest)%string.
Proof.
  unfold ListFiles_under. rewrite andb_true_iff, Nat.ltb_lt, String.eqb_eq.
  split.
  - intros [Hlen Hpre].
    exists (string_from (SiaPath fi) (String.length dirPath)). split.
    + intros E.
      pose proof (string_to_from (SiaPath fi) (String.length dirPath)) as H.
      rewrite E, Hpre, string_app_nil_r in H. rewrite <- H in Hlen by lia. lia.
    + rewrite <- Hpre at 1. symmetry. apply string_to_from. lia.
  - intros (rest & Hrest & ->). rewrite string_length_app, string_to_app.
    split; [| reflexivity]. destruct rest; [contradiction | simpl; lia].
Qed.

Lemma ListFiles_under_rest (dirPath rest : string) (fi : FileInfo) :
  SiaPath fi = (dirPath ++ rest)%string ->
  string_from (SiaPath fi) (String.length dirPath) = rest.
Proof. intros ->. apply string_from_app. Qed.

Lemma string_get_last (d : string) :
  String.get (String.length (d ++ "/") - 1) (d ++ "/") = Some "/"%char.
Proof.
  induction d as [| x d IH]; [reflexivity |].
  simpl. rewrite Nat.sub_0_r.
  destruct (String.length (d ++ "/")) eqn:E.
  - rewrite string_length_app in E. simpl in E. lia.
  - simpl in IH. rewrite Nat.sub_0_r in IH. exact IH.
Qed.

(** *** GetFileInfo *)

Lemma GetFileInfo_loop_found (files : list FileInfo) (fPath : string) :
  (exists fi, In fi files /\ SiaPath fi = fPath) ->
  exists fi, In fi files /\ SiaPath fi = fPath
             /\ GetFileInfo_loop files fPath
                = (true, false, int64_of_uint64 (Filesize fi), None).
Proof.
  induction files as [| f rest IH]; intros (fi & Hin & Hp); [contradiction |].
  simpl. destruct (String.eqb_spec (SiaPath f) fPath) as [E | E].
  - exists f. repeat split; [now left | exact E].
  - destruct Hin as [-> | Hin]; [contradiction |].
    destruct IH as (fi' & Hin' & Hp' & Hr); [now exists fi |].
    exists fi'. repeat split; [now right | exact Hp' | exact Hr].
Qed.

Lemma found_or_absent (files : list FileInfo) (fPath : string) :
  (exists fi, In fi files /\ SiaPath fi = fPath)
  \/ (forall fi, In fi files -> SiaPath fi <> fPath).
Proof.
  induction files as [| f rest [IH | IH]].
  - right. intros fi [].
  - left. destruct IH as (fi & Hin & Hp). exists fi. split; [now right | exact Hp].
  - destruct (String.eqb_spec (SiaPath f) fPath) as [E | E].
    + left. exists f. split; [now left | exact E].
    + right. intros fi [<- | Hin]; [exact E | now apply IH].
Qed.

Lemma int64_of_uint64_range (x : Z) :
  (- 2 ^ 63 <= int64_of_uint64 x < 2 ^ 63)%Z.
Proof.
  unfold int64_of_uint64.
  pose proof (Z.mod_pos_bound x (2 ^ 64) ltac:(lia)) as H.
  destruct (Z.ltb_spec (x mod 2 ^ 64) (2 ^ 63)); lia.
Qed.

(** X16. When the listing succeeds, [GetFileInfo] reports a file as existing
    exactly when some remote file has the path [storageDir + "/" + path];
    the size it reports is the size of such a file converted to [int64]
    (so between -2^63 and 2^63 - 1), 0 for a missing file, and equal to
    the remote size whenever that is below 2^63. *)
Theorem GetFileInfo_exist_iff (storage : SIAStorage) (threadIndex : Z)
  (rf : RenterFiles) (filePath : string) :
  Get_RenterFiles (client storage) "/renter/files" = inl rf ->
  let fPath := (storageDir storage ++ "/" ++ filePath)%string in
  exists exist_ size_,
    GetFileInfo storage threadIndex filePath = (exist_, false, size_, None)
    /\ (exist_ = true <-> exists fi, In fi (Files rf) /\ SiaPath fi = fPath)
    /\ (exist_ = true ->
        exists fi, In fi (Files rf) /\ SiaPath fi = fPath
                   /\ size_ = int64_of_uint64 (Filesize fi)
                   /\ ((0 <= Filesize fi < 2 ^ 63)%Z -> size_ = Filesize fi))
    /\ (exist_ = false -> size_ = 0%Z)
    /\ (- 2 ^ 63 <= size_ < 2 ^ 63)%Z.
Proof.
  intros Hget fPath. unfold GetFileInfo. rewrite Hget. fold fPath.
  assert (Hwrap : forall x, (0 <= x < 2 ^ 63)%Z -> int64_of_uint64 x = x).
  { intros x Hx. unfold int64_of_uint64. rewrite Z.mod_small by lia.
    destruct (Z.ltb_spec x (2 ^ 63)); lia. }
  destruct (found_or_absent (Files rf) fPath) as [Hex | Hno].
  - destruct (GetFileInfo_loop_found _ _ Hex) as (fi & Hin & Hp & ->).
    exists true, (int64_of_uint64 (Filesize fi)). repeat apply conj.
    + reflexivity.
    + intros _. exact Hex.
    + reflexivity.
    + intros _. exists fi. repeat split; try assumption. apply Hwrap.
    + discriminate.
    + apply int64_of_uint64_range.
    + apply int64_of_uint64_range.
  - rewrite GetFileInfo_loop_absent by exact Hno.
    exists false, 0%Z. repeat apply conj; try reflexivity; try discriminate; try lia.
    intros (fi & Hin & Hp). exfalso. exact (Hno fi Hin Hp).
Qed.

(** *** ListFiles *)

Lemma ListFiles_dir_slash (dir : string) :
  ListFiles_dir (dir ++ "/") = (dir ++ "/")%string.
Proof.
  unfold ListFiles_dir. rewrite string_get_last. simpl.
  now rewrite andb_false_r.
Qed.

(** X17. The trailing slash of the directory is optional: a non-empty [dir]
    that does not end in ['/'] is listed exactly as [dir + "/"] is, so
    ["chunks"] and ["chunks/"] give the same answer. *)
Theorem ListFiles_trailing_slash (storage : SIAStorage) (threadIndex : Z)
  (dir : string) (last : ascii) :
  String.get (String.length dir - 1) dir = Some last ->
  last <> "/"%char ->
  ListFiles storage threadIndex dir = ListFiles storage threadIndex (dir ++ "/").
Proof.
  intros Hget Hlast. unfold ListFiles. rewrite ListFiles_dir_slash.
  unfold ListFiles_dir. rewrite Hget.
  destruct (Ascii.eqb_spec last "/") as [E | _]; [contradiction |].
  destruct dir as [| x dir]; [discriminate |]. reflexivity.
Qed.

Lemma in_combine_exists {A B} (l1 : list A) (l2 : list B) (a : A) :
  length l2 = length l1 -> In a l1 -> exists b, In (a, b) (combine l1 l2).
Proof.
  revert l2. induction l1 as [| x l1 IH]; intros [| y l2] Hlen Hin;
    simpl in *; try contradiction; try discriminate.
  destruct Hin as [-> | Hin].
  - exists y. now left.
  - destruct (IH l2) as (b & Hb); [lia | exact Hin |]. exists b. now right.
Qed.

Lemma ListFiles_chunks_loop_lengths (fis : list FileInfo) (dirPath : string) :
  length (snd (ListFiles_chunks_loop fis dirPath))
  = length (fst (ListFiles_chunks_loop fis dirPath)).
Proof.
  induction fis as [| fi rest IH]; [reflexivity |].
  simpl. destruct (ListFiles_chunks_loop rest dirPath) as [files sizes].
  destruct (ListFiles_under dirPath fi); simpl in *; now rewrite ?IH.
Qed.

(** X18. [ListFiles] returns sizes only for the chunks directory: there the
    sizes run parallel to the names; for every other directory, and
    whenever the request fails, the sizes are nil. *)
Theorem ListFiles_sizes (storage : SIAStorage) (threadIndex : Z) (dir : string) :
  length (snd (fst (ListFiles storage threadIndex dir)))
  = if String.eqb (ListFiles_dir dir) "chunks/"
    then length (fst (fst (ListFiles storage threadIndex dir)))
    else 0.
Proof.
  pose proof ListFiles_chunks_loop_lengths as Hloop.
  unfold ListFiles.
  destruct (Get_RenterFiles (client storage) "/renter/files") as [rf | e].
  - destruct (String.eqb_spec (ListFiles_dir dir) "snapshots/") as [E | E].
    + rewrite E. reflexivity.
    + destruct (String.eqb (ListFiles_dir dir) "chunks/"); [| reflexivity].
      specialize (Hloop (Files rf)
                    ((storageDir storage ++ "/") ++ ListFiles_dir dir)%string).
      destruct (ListFiles_chunks_loop (Files rf) _) as [files sizes].
      exact Hloop.
  - simpl. now destruct (String.eqb (ListFiles_dir dir) "chunks/").
Qed.

Lemma ListFiles_chunks_loop_spec (fis : list FileInfo) (dirPath f : string) (sz : Z) :
  In (f, sz) (combine (fst (ListFiles_chunks_loop fis dirPath))
                      (snd (ListFiles_chunks_loop fis dirPath)))
  <-> exists fi, In fi fis /\ f <> ""%string
                 /\ SiaPath fi = (dirPath ++ f)%string
                 /\ sz = int64_of_uint64 (Filesize fi).
Proof.
  induction fis as [| fi rest IH]; simpl.
  - split; [intros [] | intros (fi & [] & _)].
  - destruct (ListFiles_chunks_loop rest dirPath) as [files sizes]. simpl in IH.
    destruct (ListFiles_under dirPath fi) eqn:U; simpl.
    + apply ListFiles_under_iff in U. destruct U as (r & Hr & Hp).
      rewrite (ListFiles_under_rest _ _ _ Hp). rewrite IH. split.
      * intros [[= <- <-] | (fi' & Hin & H)].
        -- exists fi. repeat split; [now left | exact Hr | exact Hp].
        -- exists fi'. split; [now right | exact H].
      * intros (fi' & [<- | Hin] & Hf & Hp' & ->).
        -- left. rewrite Hp' in Hp.
           assert (f = r).
           { rewrite <- (string_from_app dirPath f),
                     <- (string_from_app dirPath r). now rewrite Hp. }
           now subst.
        -- right. exists fi'. repeat split; assumption.
    + rewrite IH. split.
      * intros (fi' & Hin & H). exists fi'. split; [now right | exact H].
      * intros (fi' & [<- | Hin] & Hf & Hp' & ->).
        -- exfalso. assert (ListFiles_under dirPath fi = true)
             by (apply ListFiles_under_iff; now exists f).
           congruence.
        -- exists fi'. repeat split; assumption.
Qed.

(** X19. Listing the chunks directory returns, paired with its size
    converted to [int64], exactly every remote file whose path is
    [storageDir + "/chunks/"] followed by a non-empty name: nothing is left
    out, nothing else is listed, fossils ([.fsl]) and files in
    subdirectories included. *)
Theorem ListFiles_chunks_lists_every_file (storage : SIAStorage)
  (threadIndex : Z) (rf : RenterFiles) (f : string) (sz : Z) :
  Get_RenterFiles (client storage) "/renter/files" = inl rf ->
  let listing := ListFiles storage threadIndex "chunks/" in
  snd listing = None
  /\ (In (f, sz) (combine (fst (fst listing)) (snd (fst listing)))
      <-> exists fi, In fi (Files rf) /\ f <> ""%string
                     /\ SiaPath fi = ((storageDir storage ++ "/") ++ "chunks/" ++ f)%string
                     /\ sz = int64_of_uint64 (Filesize fi)).
Proof.
  intros Hget listing. unfold listing, ListFiles. rewrite Hget.
  change (ListFiles_dir "chunks/") with "chunks/"%string.
  change (String.eqb "chunks/" "snapshots/") with false.
  change (String.eqb "chunks/" "chunks/") with true. cbv iota.
  pose proof (ListFiles_chunks_loop_spec (Files rf)
                ((storageDir storage ++ "/") ++ "chunks/")%string f sz) as H.
  destruct (ListFiles_chunks_loop (Files rf) _) as [files sizes].
  split; [reflexivity |]. simpl in *. rewrite H.
  now rewrite (string_app_assoc (storageDir storage ++ "/") "chunks/" f).
Qed.

(** X20. [ListFiles] and [FindChunk] agree: a name is listed under
    ["chunks/"] exactly when it is not empty and [FindChunk] (not as a
    fossil) reports a file of that name as existing. *)
Theorem ListFiles_agrees_with_FindChunk (storage : SIAStorage)
  (threadIndex : Z) (rf : RenterFiles) (chunkID : string) :
  Get_RenterFiles (client storage) "/renter/files" = inl rf ->
  In chunkID (fst (fst (ListFiles storage threadIndex "chunks/")))
  <-> chunkID <> ""%string
      /\ exists size_,
           FindChunk storage threadIndex chunkID false
           = (("chunks/" ++ chunkID)%string, true, size_, None).
Proof.
  intros Hget.
  assert (Hpath : ((storageDir storage ++ "/") ++ "chunks/" ++ chunkID
                   = storageDir storage ++ "/" ++ "chunks/" ++ chunkID)%string)
    by apply string_app_assoc.
  assert (Hlist : In chunkID (fst (fst (ListFiles storage threadIndex "chunks/")))
                  <-> exists fi, In fi (Files rf) /\ chunkID <> ""%string
                        /\ SiaPath fi = ((storageDir storage ++ "/")
                                           ++ "chunks/" ++ chunkID)%string).
  { unfold ListFiles. rewrite Hget.
    change (ListFiles_dir "chunks/") with "chunks/"%string.
    change (String.eqb "chunks/" "snapshots/") with false.
    change (String.eqb "chunks/" "chunks/") with true. cbv iota.
    pose proof (fun sz => ListFiles_chunks_loop_spec (Files rf)
                  ((storageDir storage ++ "/") ++ "chunks/")%string chunkID sz) as H.
    pose proof (ListFiles_chunks_loop_lengths (Files rf)
                  ((storageDir storage ++ "/") ++ "chunks/")%string) as Hlen.
    destruct (ListFiles_chunks_loop (Files rf) _) as [files sizes].
    simpl in *. split.
    - intros Hin.
      destruct (in_combine_exists files sizes chunkID Hlen Hin) as (sz & H1).
      apply H in H1. destruct H1 as (fi & Hfi & Hne & Hp & _).
      rewrite string_app_assoc in Hp.
      exists fi. repeat split; assumption.
    - intros (fi & Hfi & Hne & Hp).
      assert (In (chunkID, int64_of_uint64 (Filesize fi)) (combine files sizes)).
      { apply H. exists fi. rewrite string_app_assoc. repeat split; assumption. }
      now apply in_combine_l in H0. }
  rewrite Hlist. unfold FindChunk, GetFileInfo. rewrite Hget. split.
  - intros (fi & Hfi & Hne & Hp). split; [exact Hne |].
    rewrite Hpath in Hp.
    destruct (GetFileInfo_loop_found (Files rf) _ (ex_intro _ fi (conj Hfi Hp)))
      as (fi' & _ & _ & ->).
    eexists. reflexivity.
  - intros (Hne & size_ & Hfind).
    destruct (found_or_absent (Files rf)
                (storageDir storage ++ "/" ++ "chunks/" ++ chunkID)%string)
      as [(fi & Hfi & Hp) | Hno].
    + exists fi. rewrite Hpath. repeat split; assumption.
    + rewrite GetFileInfo_loop_absent in Hfind by exact Hno. discriminate.
Qed.

Lemma strings_Split_slash_hd (s : string) :
  no_slash (hd EmptyString (strings_Split_slash s))
  /\ exists rest,
       s = (hd EmptyString (strings_Split_slash s) ++ rest)%string
       /\ (rest = ""%string \/ exists r, rest = String "/" r).
Proof.
  unfold no_slash. induction s as [| a t (IHn & rest & IHs & IHr)].
  - simpl. split; [tauto |]. exists ""%string. split; [reflexivity | now left].
  - simpl. destruct (Ascii.eqb_spec a "/") as [-> | Ha].
    + simpl. split; [tauto |]. exists (String "/" t).
      split; [reflexivity | right; now exists t].
    + destruct (strings_Split_slash t) as [| piece pieces]; simpl in *.
      * split; [intros [E | []]; now apply Ha |].
        exists rest. split; [now rewrite IHs at 1 | exact IHr].
      * split; [intros [E | Hin]; [now apply Ha | now apply IHn] |].
        exists rest. split; [now rewrite IHs at 1 | exact IHr].
Qed.

Lemma ListFiles_snapshots_loop_spec (fis : list FileInfo) (dirPath d : string) :
  In d (ListFiles_snapshots_loop fis dirPath) ->
  exists seg rest fi,
    d = (seg ++ "/")%string /\ no_slash seg
    /\ In fi fis /\ SiaPath fi = (dirPath ++ seg ++ rest)%string
    /\ (rest = ""%string \/ exists r, rest = String "/" r).
Proof.
  induction fis as [| fi rest IH]; simpl; [intros [] |].
  destruct (ListFiles_under dirPath fi) eqn:U.
  - intros [<- | Hin].
    + apply ListFiles_under_iff in U. destruct U as (r & _ & Hp).
      rewrite (ListFiles_under_rest _ _ _ Hp).
      destruct (strings_Split_slash_hd r) as (Hn & rest' & Hs & Hr).
      exists (hd EmptyString (strings_Split_slash r)), rest', fi.
      repeat split; try assumption; [now left |]. now rewrite <- Hs.
    + destruct (IH Hin) as (seg & rest' & fi' & H1 & H2 & H3 & H4 & H5).
      exists seg, rest', fi'. repeat split; try assumption. now right.
  - intros Hin. destruct (IH Hin) as (seg & rest' & fi' & H1 & H2 & H3 & H4 & H5).
    exists seg, rest', fi'. repeat split; try assumption. now right.
Qed.

Lemma ListFiles_snapshots_loop_length (fis : list FileInfo) (dirPath : string) :
  length (ListFiles_snapshots_loop fis dirPath)
  = length (filter (ListFiles_under dirPath) fis).
Proof.
  induction fis as [| fi rest IH]; [reflexivity |].
  simpl. destruct (ListFiles_under dirPath fi); simpl; now rewrite IH.
Qed.

(** X21. Listing ["snapshots/"] gives one entry for every remote file below
    [storageDir + "/snapshots/"], without removing duplicates: a snapshot
    id with several revision files is listed once per file.  Every entry is
    the first segment of the file's path below the directory followed by
    ['/'], and contains no other ['/']. *)
Theorem ListFiles_snapshots_lists_first_segments (storage : SIAStorage)
  (threadIndex : Z) (rf : RenterFiles) :
  Get_RenterFiles (client storage) "/renter/files" = inl rf ->
  let dirPath := ((storageDir storage ++ "/") ++ "snapshots/")%string in
  exists files,
    ListFiles storage threadIndex "snapshots/" = (files, [], None)
    /\ length files = length (filter (ListFiles_under dirPath) (Files rf))
    /\ forall d, In d files ->
         exists seg rest fi,
           d = (seg ++ "/")%string /\ no_slash seg
           /\ In fi (Files rf) /\ SiaPath fi = (dirPath ++ seg ++ rest)%string
           /\ (rest = ""%string \/ exists r, rest = String "/" r).
Proof.
  intros Hget dirPath. unfold ListFiles. rewrite Hget.
  change (ListFiles_dir "snapshots/") with "snapshots/"%string.
  change (String.eqb "snapshots/" "snapshots/") with true. cbv iota.
  fold dirPath. eexists. split; [reflexivity |]. split.
  - apply ListFiles_snapshots_loop_length.
  - apply ListFiles_snapshots_loop_spec.
Qed.

Lemma ListFiles_other_loop_spec (fis : list FileInfo) (dirPath f : string) :
  In f (ListFiles_other_loop fis dirPath)
  <-> f <> ""%string /\ exists fi, In fi fis /\ SiaPath fi = (dirPath ++ f)%string.
Proof.
  induction fis as [| fi rest IH]; simpl.
  - split; [intros [] | intros (_ & fi & [] & _)].
  - destruct (ListFiles_under dirPath fi) eqn:U; simpl.
    + apply ListFiles_under_iff in U. destruct U as (r & Hr & Hp).
      rewrite (ListFiles_under_rest _ _ _ Hp), IH. split.
      * intros [<- | (Hf & fi' & Hin & Hp')].
        -- split; [exact Hr |]. exists fi. split; [now left | exact Hp].
        -- split; [exact Hf |]. exists fi'. split; [now right | exact Hp'].
      * intros (Hf & fi' & [<- | Hin] & Hp').
        -- left. rewrite Hp' in Hp.
           rewrite <- (string_from_app dirPath f),
                   <- (string_from_app dirPath r). now rewrite Hp.
        -- right. split; [exact Hf |]. now exists fi'.
    + rewrite IH. split.
      * intros (Hf & fi' & Hin & Hp'). split; [exact Hf |].
        exists fi'. split; [now right | exact Hp'].
      * intros (Hf & fi' & [<- | Hin] & Hp').
        -- exfalso. assert (ListFiles_under dirPath fi = true)
             by (apply ListFiles_under_iff; now exists f).
           congruence.
        -- split; [exact Hf |]. now exists fi'.
Qed.

Lemma ListFiles_chunks_loop_names (fis : list FileInfo) (dirPath : string) :
  fst (ListFiles_chunks_loop fis dirPath) = ListFiles_other_loop fis dirPath.
Proof.
  induction fis as [| fi rest IH]; [reflexivity |].
  simpl. destruct (ListFiles_chunks_loop rest dirPath) as [files sizes].
  simpl in IH. destruct (ListFiles_under dirPath fi); simpl; now rewrite IH.
Qed.

(** X22. For every directory other than ["snapshots/"], [ListFiles] is not
    limited to one level: it lists every remote file whose path starts with
    the directory path, at any depth, by the non-empty rest of its path,
    and nothing else. *)
Theorem ListFiles_lists_all_descendants (storage : SIAStorage)
  (threadIndex : Z) (rf : RenterFiles) (dir f : string) :
  Get_RenterFiles (client storage) "/renter/files" = inl rf ->
  ListFiles_dir dir <> "snapshots/"%string ->
  In f (fst (fst (ListFiles storage threadIndex dir)))
  <-> f <> ""%string
      /\ exists fi, In fi (Files rf)
                    /\ SiaPath fi
                       = (((storageDir storage ++ "/") ++ ListFiles_dir dir) ++ f)%string.
Proof.
  intros Hget Hdir. unfold ListFiles. rewrite Hget.
  destruct (String.eqb_spec (ListFiles_dir dir) "snapshots/") as [E | _];
    [contradiction |].
  destruct (String.eqb (ListFiles_dir dir) "chunks/").
  - pose proof (ListFiles_chunks_loop_names (Files rf)
                  ((storageDir storage ++ "/") ++ ListFiles_dir dir)%string) as Hn.
    destruct (ListFiles_chunks_loop (Files rf) _) as [files sizes].
    simpl in *. rewrite Hn. apply ListFiles_other_loop_spec.
  - simpl. apply ListFiles_other_loop_spec.
Qed.

(** * The further properties at concrete inputs *)

Lemma toy_world_within_cap : pool_within_cap toy_world.
Proof. unfold pool_within_cap. simpl. lia. Defined.

Lemma toy_encrypted_eq :
  Encrypt toy_key "chunk" (snd toy_hashed) toy_world
  = Returned None (fst toy_encrypted) (snd toy_encrypted).
Proof. vm_compute. reflexivity. Defined.

Lemma toy_decrypted_eq :
  Decrypt toy_key "chunk" (fst toy_encrypted) (snd toy_encrypted)
  = Returned None (fst toy_decrypted) (snd toy_decrypted).
Proof. vm_compute. reflexivity. Defined.

Lemma toy_short_rejected :
  Decrypt toy_key "chunk" toy_short toy_world
  = Returned (Some "No enough encrypted data (3 bytes) provided"%string)
      (set_buffer (Some []) toy_short) (after_call [x01; x02; x03] toy_world).
Proof. reflexivity. Defined.

(** A chunk created without a buffer, then "hello world" written. *)
Lemma CreateChunk_has_no_hasher_witness :
  exists c w',
    CreateChunk toy_config false toy_world = Ok (c, w')
    /\ fits_int (length (concat toy_pieces))
    /\ GetLength (write_all toy_pieces c) = 11
    /\ GetHash (write_all toy_pieces c) = Panic.
Proof.
  eexists. eexists. split; [reflexivity |].
  assert (Hfit : fits_int (length (concat toy_pieces))).
  { unfold fits_int, MaxInt32. simpl. lia. }
  split; [exact Hfit |].
  destruct (CreateChunk_has_no_hasher toy_config false _ toy_world _ toy_pieces
              eq_refl (fun _ => Hfit)) as (_ & H2 & _ & H3 & _).
  split; [exact H2 | exact H3].
Defined.

(** A hash-only chunk counts the eleven bytes of "hello world". *)
Lemma GetLength_GetBytes_after_writes_witness :
  fits_int (length (concat toy_pieces))
  /\ GetLength (write_all toy_pieces (Reset true toy_hash_only)) = 11
  /\ GetBytes (write_all toy_pieces (Reset true toy_hash_only)) = Panic.
Proof.
  assert (Hfit : fits_int (length (concat toy_pieces))).
  { unfold fits_int, MaxInt32. simpl. lia. }
  split; [exact Hfit |].
  destruct (GetLength_GetBytes_after_writes true toy_hash_only toy_pieces
              (fun _ => Hfit)) as (H1 & _ & H3).
  split; [exact H1 | exact H3].
Defined.

(** The hash read from "hello world" survives the writing of "!". *)
Lemma GetHash_returns_cached_hash_witness :
  GetHash (write_all [bytes_of_string "!"] (snd toy_hashed))
  = Ok (fst toy_hashed, write_all [bytes_of_string "!"] (snd toy_hashed)).
Proof.
  apply (GetHash_returns_cached_hash (snd toy_hashed) [bytes_of_string "!"]).
  simpl. lia.
Defined.

Lemma threefishCTR_inverts_itself_witness :
  length (fst toy_ctr) = 3
  /\ threefishCTR toy_key toy_salt (fst toy_ctr) false
     = Ok ([x01; x02; x03], snd toy_ctr).
Proof.
  apply (threefishCTR_inverts_itself toy_key toy_salt [x01; x02; x03]
           (fst toy_ctr) (snd toy_ctr)).
  vm_compute. reflexivity.
Defined.

Lemma Encrypt_changes_only_the_buffer_witness :
  fst toy_encrypted = set_buffer (buffer (fst toy_encrypted)) (snd toy_hashed).
Proof.
  exact (proj1 (Encrypt_changes_only_the_buffer (snd toy_hashed)
                  (fst toy_encrypted) toy_world (snd toy_encrypted) toy_key
                  "chunk" None toy_encrypted_eq)).
Defined.

Lemma Encrypt_overhead_witness :
  exists compressed,
    zstd_CompressLevel (bytes_of_string "hello world") 3 = inl compressed
    /\ GetLength (fst toy_encrypted) = 10 + 32 + 64 + length compressed.
Proof.
  exact (Encrypt_overhead ToyLaws (snd toy_hashed) (fst toy_encrypted) toy_world
           (snd toy_encrypted) toy_key "chunk" (bytes_of_string "hello world")
           eq_refl toy_encrypted_eq).
Defined.

Lemma Decrypt_leaves_a_consistent_hasher_witness :
  exists P,
    GetBytes (fst toy_decrypted) = Ok P
    /\ GetHash (fst toy_decrypted)
       = Ok (string_of_list_byte (KeyedHasher_Sum toy_config [x01] P),
             set_hash (KeyedHasher_Sum toy_config [x01] P) (fst toy_decrypted))
    /\ id (fst toy_decrypted) = id (fst toy_encrypted)
    /\ size (fst toy_decrypted) = size (fst toy_encrypted)
    /\ config (fst toy_decrypted) = config (fst toy_encrypted).
Proof.
  exact (Decrypt_leaves_a_consistent_hasher (fst toy_encrypted)
           (fst toy_decrypted) (snd toy_encrypted) (snd toy_decrypted) toy_key
           "chunk" toy_decrypted_eq).
Defined.

(** The rejected three-byte envelope leaves an empty chunk. *)
Lemma Decrypt_error_empties_the_chunk_witness :
  GetLength (set_buffer (Some []) toy_short) = 0.
Proof.
  exact (proj2 (Decrypt_error_empties_the_chunk toy_short _ toy_world _ toy_key
                  "chunk" _ toy_short_rejected)).
Defined.

Lemma Decrypt_package_state_witness :
  exists envelope,
    buffer (fst toy_encrypted) = Some envelope
    /\ snd toy_decrypted
       = set_pool (tl (chunkBufferPool (snd toy_encrypted)) ++ [Some envelope])
           (snd toy_encrypted).
Proof.
  apply (Decrypt_package_state ToyLaws (fst toy_encrypted) (fst toy_decrypted)
           (snd toy_encrypted) (snd toy_decrypted) toy_key "chunk" None).
  - unfold pool_within_cap. vm_compute. lia.
  - exact toy_decrypted_eq.
Defined.

Lemma Encrypt_package_state_witness :
  exists P r,
    buffer (snd toy_hashed) = Some P
    /\ snd toy_encrypted
       = set_pool (tl (chunkBufferPool toy_world) ++ [Some P]) (set_rand r toy_world)
    /\ (length toy_key = 0 -> r = rand_state toy_world)
    /\ (0 < length toy_key -> r = snd (rand_Read 32 (rand_state toy_world))).
Proof.
  exact (Encrypt_package_state ToyLaws (snd toy_hashed) (fst toy_encrypted)
           toy_world (snd toy_encrypted) toy_key "chunk" toy_world_within_cap
           toy_encrypted_eq).
Defined.

Lemma pool_stays_within_cap_witness : pool_within_cap (snd toy_encrypted).
Proof.
  exact (pool_stays_within_cap (snd toy_hashed) (fst toy_encrypted) toy_world
           (snd toy_encrypted) toy_key "chunk" None toy_world_within_cap
           (or_introl toy_encrypted_eq)).
Defined.

(** The stale id "zzz" is reported against the id of "hello world". *)
Lemma VerifyID_checks_the_cached_id_witness :
  exists recomputed,
    VerifyID toy_stale
    = Ok (Some ("CHUNK_ID"%string,
                ("The chunk id should be " ++ recomputed
                   ++ " instead of zzz, length: 11")%string),
          toy_stale).
Proof.
  eexists.
  refine (eq_trans (VerifyID_checks_the_cached_id toy_stale
                      (bytes_of_string "hello world") eq_refl _) _).
  - discriminate.
  - reflexivity.
Defined.

Lemma VerifyID_after_Decrypt_cannot_fail_witness :
  exists c'', VerifyID (fst toy_decrypted) = Ok (None, c'').
Proof.
  exact (VerifyID_after_Decrypt_cannot_fail (fst toy_encrypted)
           (fst toy_decrypted) (snd toy_encrypted) (snd toy_decrypted) toy_key
           "chunk" eq_refl toy_decrypted_eq).
Defined.

Lemma GetFileInfo_exist_iff_witness :
  exists exist_ size_,
    GetFileInfo toy_listing_storage 0 "chunks/abc" = (exist_, false, size_, None)
    /\ (exist_ = true
        <-> exists fi, In fi (Files toy_files) /\ SiaPath fi = "backup/chunks/abc"%string).
Proof.
  destruct (GetFileInfo_exist_iff toy_listing_storage 0 toy_files "chunks/abc"
              eq_refl) as (e & sz & H1 & H2 & _).
  exists e, sz. split; [exact H1 | exact H2].
Defined.

Lemma ListFiles_trailing_slash_witness :
  ListFiles toy_listing_storage 0 "chunks"
  = ListFiles toy_listing_storage 0 "chunks/".
Proof.
  apply (ListFiles_trailing_slash toy_listing_storage 0 "chunks" "s"%char).
  - reflexivity.
  - discriminate.
Defined.

Lemma ListFiles_chunks_lists_every_file_witness :
  In ("ab/cd"%string, 7%Z)
     (combine (fst (fst (ListFiles toy_listing_storage 0 "chunks/")))
              (snd (fst (ListFiles toy_listing_storage 0 "chunks/")))).
Proof.
  apply (proj2 (ListFiles_chunks_lists_every_file toy_listing_storage 0 toy_files
                  "ab/cd" 7 eq_refl)).
  exists {| SiaPath := "backup/chunks/ab/cd"; Filesize := 7; Available := true |}.
  repeat split.
  - simpl. tauto.
  - discriminate.
Defined.

Lemma ListFiles_agrees_with_FindChunk_witness :
  In "abd.fsl"%string (fst (fst (ListFiles toy_listing_storage 0 "chunks/"))).
Proof.
  apply (ListFiles_agrees_with_FindChunk toy_listing_storage 0 toy_files
           "abd.fsl" eq_refl).
  split; [discriminate |]. eexists. reflexivity.
Defined.

(** Three snapshot files, so three entries: ["host/"] twice and ["other/"]. *)
Lemma ListFiles_snapshots_lists_first_segments_witness :
  exists files,
    ListFiles toy_listing_storage 0 "snapshots/" = (files, [], None)
    /\ length files = 3.
Proof.
  destruct (ListFiles_snapshots_lists_first_segments toy_listing_storage 0
              toy_files eq_refl) as (files & H1 & H2 & _).
  exists files. split; [exact H1 | exact H2].
Defined.

(** Below ["snapshots/host"] the revisions are listed by their names. *)
Lemma ListFiles_lists_all_descendants_witness :
  In "2"%string (fst (fst (ListFiles toy_listing_storage 0 "snapshots/host"))).
Proof.
  apply (proj2 (ListFiles_lists_all_descendants toy_listing_storage 0 toy_files
                  "snapshots/host" "2" eq_refl ltac:(discriminate))).
  split; [discriminate |].
  exists {| SiaPath := "backup/snapshots/host/2"; Filesize := 41; Available := true |}.
  split; [simpl; tauto | reflexivity].
Defined.
